(** * AggregationEfficiency: the Wasatch aggregation-efficiency expression

    A shallow embedding of
    [CCA/Components/Wasatch/Expressions/PBE/Precipitation/AggregationEfficiency.h]
    and the properties of its [bind_fields] and [evaluate] members.

    The C++ [double] is modelled by Rocq's primitive binary64 [float]
    (round-to-nearest-even, a single NaN): every operation of the source is
    the primitive operation of the same name, so concrete inputs evaluate
    bit for bit, and general statements go through the standard library's
    specification of the primitives ([FloatAxioms], [SpecFloat]). *)

From Stdlib Require Import ZArith List Bool Floats String Lia Reals Lra.
Import ListNotations.

Set Implicit Arguments.

(** ** The C++ [double] and its comparisons *)

Definition double := float.

Bind Scope float_scope with double.

(** [a > b] on doubles: false as soon as one side is NaN. *)
Definition gtb (a b : double) : bool := PrimFloat.ltb b a.

(** ** SpatialOps/Nebo operations, at one spatial point

    A Nebo assignment [f <<= e] evaluates the expression [e] independently
    at every point of the field; [cond(c, a)(b)] selects [a] where the mask
    [c] holds and [b] elsewhere. *)

Definition cond (c : bool) (a b : double) : double := if c then a else b.

(** The candidate of the BULK_DIFFUSION branch (source lines 199-202). *)
Definition bulk_diffusion_candidate (l g0 rho eps ri rj : double) : double :=
  cond (gtb rho 0 && gtb eps 0)
       (cond (gtb ri rj)
             (l * g0 / (ri * rho * (ri + rj) * (ri + rj) * eps))
             (l * g0 / (rj * rho * (ri + rj) * (ri + rj) * eps)))
       0.

(** The candidate of the MONOSURFACE branch (source lines 213-216). *)
Definition monosurface_candidate (l g0 rho eps ri rj : double) : double :=
  cond (gtb rho 0 && gtb eps 0)
       (cond (gtb ri rj)
             (l * g0 / (ri * rho * (ri + rj) * (ri + rj) * eps))
             (l * g0 / (rj * rho * (ri + rj) * (ri + rj) * eps)))
       0.

(** The candidate of the CONSTANT / KINETIC branch (source lines 227-228). *)
Definition constant_candidate (l g0 rho eps ri rj : double) : double :=
  cond (gtb rho 0 && gtb eps 0)
       (l * g0 / (rho * (ri + rj) * (ri + rj) * eps))
       0.

(** [*tmp <<= cond( *tmp > 0.0, *tmp )( 0.0 )] *)
Definition clamp (t : double) : double := cond (gtb t 0) t 0.

(** [*results[idx++] <<= *tmp / (1.0 + *tmp)] *)
Definition saturate (t : double) : double := (t / (1 + t))%float.

(** The value written for one pair at one point: candidate, clamp, saturation. *)
Definition candidate := double -> double -> double -> double -> double -> double -> double.

Definition efficiency (cand : candidate) (l g0 rho eps ri rj : double) : double :=
  saturate (clamp (cand l g0 rho eps ri rj)).

(** The [if / else if] chain of [evaluate] on [growthModel_] (lines 195, 209,
    223): which loop nest runs, if any. *)
Definition select_candidate (growthModel : string) : option candidate :=
  if (growthModel =? "BULK_DIFFUSION")%string then Some bulk_diffusion_candidate
  else if (growthModel =? "MONOSURFACE")%string then Some monosurface_candidate
  else if ((growthModel =? "CONSTANT") || (growthModel =? "KINETIC"))%string
       then Some constant_candidate
  else None.

(** ** Small error monad: [None] is undefined behaviour of the C++ code
    (an index past the end of a vector, a pointer that was never bound). *)

Definition bind {A B : Type} (m : option A) (k : A -> option B) : option B :=
  match m with
  | Some a => k a
  | None => None
  end.

Notation "x <- m ;; k" := (bind m (fun x => k))
  (at level 61, m at next level, right associativity).

(** [for (int i = 0; i < n; i++) body(i)], as [for_from n 0]. *)
Fixpoint for_from (S : Type) (fuel i : nat) (body : nat -> S -> option S) (s : S)
  : option S :=
  match fuel with
  | O => Some s
  | Datatypes.S fuel' => s' <- body i s ;; for_from fuel' (Datatypes.S i) body s'
  end.

Definition for_loop (S : Type) (n : nat) (body : nat -> S -> option S) (s : S)
  : option S := for_from n 0 body s.

(** [v[k] = x] on a [std::vector]: undefined past the end. *)
Fixpoint store (A : Type) (v : list A) (k : nat) (x : A) : option (list A) :=
  match v, k with
  | [], _ => None
  | _ :: v', O => Some (x :: v')
  | y :: v', S k' => option_map (cons y) (store v' k' x)
  end.

(** ** The expression object *)

Section Expression.

(** Points of the mesh, [Expr::Tag], and the address of a field
    ([const FieldT*]). *)
Variables (Point Tag Handle : Type).

Definition Field := Point -> double.

(** What [fml.field_manager<FieldT>().field_ref(tag)] resolves a tag to;
    [None] when the host's field manager raises. *)
Definition FieldManager := Tag -> option Handle.

(** The input fields behind the bound addresses when [evaluate] runs.  The
    outputs and the temporary are storage of their own: [evaluate] never
    writes to an input. *)
Definition Memory := Handle -> Field.

Record AggregationEfficiency : Type := Build_AggregationEfficiency {
  abscissaeTagList_ : list Tag;
  growthCoefTag_ : Tag;
  dissipationTag_ : Tag;
  densityTag_ : Tag;
  l_ : double;
  growthModel_ : string;
  abscissae_ : list Handle;
  g0_ : option Handle;
  eps_ : option Handle;
  rho_ : option Handle
}.

(** The constructor (lines 119-136): configuration only, nothing bound. *)
Definition construct (abscissaeTagList : list Tag)
    (growthCoefTag dissipationTag densityTag : Tag)
    (lengthParam : double) (growthModel : string) : AggregationEfficiency :=
  {| abscissaeTagList_ := abscissaeTagList;
     growthCoefTag_ := growthCoefTag;
     dissipationTag_ := dissipationTag;
     densityTag_ := densityTag;
     l_ := lengthParam;
     growthModel_ := growthModel;
     abscissae_ := [];
     g0_ := None;
     eps_ := None;
     rho_ := None |}.

(** *** [bind_fields] (lines 160-173) *)

(** How a member function ends: it returns, or an exception leaves it with
    the object as it is at that point. *)
Inductive completion (A : Type) : Type :=
| Returned (a : A)
| Thrown (a : A).

Definition set_abscissae (e : AggregationEfficiency) (hs : list Handle) :=
  {| abscissaeTagList_ := abscissaeTagList_ e;
     growthCoefTag_ := growthCoefTag_ e;
     dissipationTag_ := dissipationTag_ e;
     densityTag_ := densityTag_ e;
     l_ := l_ e;
     growthModel_ := growthModel_ e;
     abscissae_ := hs;
     g0_ := g0_ e;
     eps_ := eps_ e;
     rho_ := rho_ e |}.

Definition set_scalars (e : AggregationEfficiency) (g eps rho : option Handle) :=
  {| abscissaeTagList_ := abscissaeTagList_ e;
     growthCoefTag_ := growthCoefTag_ e;
     dissipationTag_ := dissipationTag_ e;
     densityTag_ := densityTag_ e;
     l_ := l_ e;
     growthModel_ := growthModel_ e;
     abscissae_ := abscissae_ e;
     g0_ := g;
     eps_ := eps;
     rho_ := rho |}.

(** The loop of lines 167-169 over the remaining tags: one [push_back] per
    tag, stopping where [field_ref] raises. *)
Fixpoint push_abscissae (volfm : FieldManager) (tags : list Tag)
    (e : AggregationEfficiency) : completion AggregationEfficiency :=
  match tags with
  | [] => Returned e
  | t :: tags' =>
      match volfm t with
      | Some h => push_abscissae volfm tags' (set_abscissae e (abscissae_ e ++ [h]))
      | None => Thrown e
      end
  end.

Definition bind_fields (volfm : FieldManager) (e : AggregationEfficiency)
  : completion AggregationEfficiency :=
  let e0 := set_abscissae e [] in
  match push_abscissae volfm (abscissaeTagList_ e0) e0 with
  | Thrown e1 => Thrown e1
  | Returned e1 =>
      match volfm (growthCoefTag_ e1) with
      | None => Thrown e1
      | Some g =>
          let e2 := set_scalars e1 (Some g) (eps_ e1) (rho_ e1) in
          match volfm (dissipationTag_ e2) with
          | None => Thrown e2
          | Some d =>
              let e3 := set_scalars e2 (g0_ e2) (Some d) (rho_ e2) in
              match volfm (densityTag_ e3) with
              | None => Thrown e3
              | Some r => Returned (set_scalars e3 (g0_ e3) (eps_ e3) (Some r))
              end
          end
      end
  end.

(** *** [evaluate] (lines 177-236) *)

(** The locals the loop nest updates: the scratch field [tmp], the running
    index [idx], and the fields behind [results].  The C++ [int]s [idx], [i],
    [j] and [nEnv] count fields and stay far below [2 ^ 31]; they are natural
    numbers here. *)
Record EvalState : Type := Build_EvalState {
  tmp : Field;
  idx : nat;
  results : list Field
}.

(** [*abscissae_[i]] *)
Definition abscissa (e : AggregationEfficiency) (mem : Memory) (i : nat)
  : option Field := option_map mem (nth_error (abscissae_ e) i).

(** The three statements of one loop iteration, for the candidate formula of
    the branch taken. *)
Definition pair_body (e : AggregationEfficiency) (mem : Memory) (cand : candidate)
    (i j : nat) (s : EvalState) : option EvalState :=
  ri <- abscissa e mem i ;;
  rj <- abscissa e mem j ;;
  g0 <- option_map mem (g0_ e) ;;
  rho <- option_map mem (rho_ e) ;;
  eps <- option_map mem (eps_ e) ;;
  let tmp1 : Field := fun p => cand (l_ e) (g0 p) (rho p) (eps p) (ri p) (rj p) in
  let tmp2 : Field := fun p => clamp (tmp1 p) in
  res <- store (results s) (idx s) (fun p => saturate (tmp2 p)) ;;
  Some {| tmp := tmp2; idx := S (idx s); results := res |}.

(** [tmp] is scratch storage of the shape of [*results[0]]; what it holds at
    first is never read, every iteration assigns it before using it. *)
Definition evaluate (e : AggregationEfficiency) (mem : Memory)
    (results0 : list Field) : option (list Field) :=
  match results0 with
  | [] => None
  | r0 :: _ =>
      let nEnv := List.length (abscissae_ e) in
      let s0 := {| tmp := r0; idx := 0; results := results0 |} in
      match select_candidate (growthModel_ e) with
      | Some cand =>
          option_map results
            (for_loop nEnv
               (fun i => for_loop nEnv (pair_body e mem cand i)) s0)
      | None => Some results0
      end
  end.

(** The field [evaluate] stores for the ordered pair [(i, j)]: the
    right-hand side of line 205 (219, 231) with the two earlier assignments
    of [tmp] substituted. *)
Definition written_field (e : AggregationEfficiency) (mem : Memory)
    (cand : candidate) (i j : nat) : option Field :=
  ri <- abscissa e mem i ;;
  rj <- abscissa e mem j ;;
  g0 <- option_map mem (g0_ e) ;;
  rho <- option_map mem (rho_ e) ;;
  eps <- option_map mem (eps_ e) ;;
  Some (fun p => efficiency cand (l_ e) (g0 p) (rho p) (eps p) (ri p) (rj p)).

(** The three scalar pointers were set. *)
Definition bound (e : AggregationEfficiency) : Prop :=
  g0_ e <> None /\ eps_ e <> None /\ rho_ e <> None.

(** The object a call leaves behind, however it ended. *)
Definition object_after (c : completion AggregationEfficiency)
  : AggregationEfficiency :=
  match c with
  | Returned e => e
  | Thrown e => e
  end.

(** Any number of [bind_fields] calls in a row, one field manager each. *)
Definition bind_fields_calls (volfms : list FieldManager)
    (e : AggregationEfficiency) : AggregationEfficiency :=
  fold_left (fun e' volfm => object_after (bind_fields volfm e')) volfms e.

End Expression.

(** ** Vocabulary for the statements *)

(** The divisors of the candidate divisions, as the source spells them. *)
Definition bulk_divisor (r rho ri rj eps : double) : double :=
  r * rho * (ri + rj) * (ri + rj) * eps.

Definition constant_divisor (rho ri rj eps : double) : double :=
  rho * (ri + rj) * (ri + rj) * eps.

(** The radius the BULK_DIFFUSION and MONOSURFACE branches divide by:
    [ri] where [ri > rj], [rj] elsewhere. *)
Definition selected_radius (ri rj : double) : double := cond (gtb ri rj) ri rj.

(** The guard of the candidate formula, [rho > 0.0 && eps > 0.0]. *)
Definition guard (rho eps : double) : bool := gtb rho 0 && gtb eps 0.

(** A double that is a number other than zero (a finite nonzero value or an
    infinity). *)
Definition nonzero_number (x : double) : bool := negb (is_zero x) && negb (is_nan x).

(** A finite double in the half-open interval [0, 1). *)
Definition in_unit_interval (x : double) : bool := (0 <=? x)%float && (x <? 1)%float.

(** A double in the closed interval [0, 1]. *)
Definition in_closed_unit_interval (x : double) : bool :=
  (0 <=? x)%float && (x <=? 1)%float.

(** [+0.0] paired with [-0.0], in either order. *)
Definition opposite_zeros (a b : double) : bool :=
  match Prim2SF a, Prim2SF b with
  | S754_zero sa, S754_zero sb => xorb sa sb
  | _, _ => false
  end.

(** The growth-model strings [evaluate] has a branch for. *)
Definition recognized (growthModel : string) : Prop :=
  growthModel = "BULK_DIFFUSION"%string \/ growthModel = "MONOSURFACE"%string \/
  growthModel = "CONSTANT"%string \/ growthModel = "KINETIC"%string.

(** Classification of the specification-level floats behind the primitives. *)
Definition sign_is (s : bool) (x : spec_float) : Prop :=
  match x with
  | S754_nan => True
  | S754_zero s' | S754_infinity s' | S754_finite s' _ _ => s' = s
  end.

Definition SFis_pos (x : spec_float) : bool :=
  match x with
  | S754_infinity false | S754_finite false _ _ => true
  | _ => false
  end.

Definition SFis_neg (x : spec_float) : bool :=
  match x with
  | S754_infinity true | S754_finite true _ _ => true
  | _ => false
  end.

Definition SFis_zero (x : spec_float) : bool :=
  match x with
  | S754_zero _ => true
  | _ => false
  end.

Definition SFis_nan (x : spec_float) : bool :=
  match x with
  | S754_nan => true
  | _ => false
  end.

(** ** Real values behind the specification-level floats *)

(** [2 ^ e] as a real number. *)
Definition bpow (e : Z) : R := powerRZ 2 e.

(** The exponent of the binary64 format for a number of magnitude [x]. *)
Definition fexp64 (x : Z) : Z := Z.max (x - 53) (-1074).

(** A shift record carries a round bit or a sticky bit. *)
Definition rec_inexact (mrs : shr_record) : bool := shr_r mrs || shr_s mrs.

(** The real [v] lies in the cell of the significand of [mrs] at exponent
    [e], strictly inside when a round or sticky bit is set and on its lower
    end otherwise. *)
Definition locates (v : R) (mrs : shr_record) (e : Z) : Prop :=
  (0 <= shr_m mrs)%Z /\
  (IZR (shr_m mrs) * bpow e <= v < IZR (shr_m mrs + 1) * bpow e)%R /\
  (rec_inexact mrs = true -> (IZR (shr_m mrs) * bpow e < v)%R) /\
  (rec_inexact mrs = false -> v = (IZR (shr_m mrs) * bpow e)%R).

(** ** A one-point mesh for concrete runs

    Tags and addresses are numbers: tag 0 is the growth coefficient, 1 the
    dissipation, 2 the density, 3 and 4 the two abscissae; the field manager
    hands out the address equal to the tag, and the memory holds one value
    per field. *)
Module OnePoint.

Definition volfm : FieldManager nat nat := fun t => Some t.

Definition memory (g0 eps rho r0 r1 : double) : Memory unit nat :=
  fun h _ => nth h [g0; eps; rho; r0; r1] nan.

Definition expression (l : double) (growthModel : string)
  : AggregationEfficiency nat nat :=
  object_after (bind_fields volfm (construct nat [3; 4] 0 1 2 l growthModel)).

(** Four output fields, holding 7 before [evaluate] runs. *)
Definition outputs : list (Field unit) := repeat (fun _ => 7%float) 4.

(** The field of the pair [(i, j)] for a candidate formula, and the four of
    them in the order of the result vector. *)
Definition pair_field (l : double) (cand : candidate)
    (g0 eps rho r0 r1 : double) (i j : nat) : Field unit :=
  fun p =>
    let m := memory g0 eps rho r0 r1 in
    efficiency cand l (m 0 p) (m 2 p) (m 1 p) (m (3 + i) p) (m (3 + j) p).

Definition pair_fields (l : double) (cand : candidate)
    (g0 eps rho r0 r1 : double) : list (Field unit) :=
  [pair_field l cand g0 eps rho r0 r1 0 0; pair_field l cand g0 eps rho r0 r1 0 1;
   pair_field l cand g0 eps rho r0 r1 1 0; pair_field l cand g0 eps rho r0 r1 1 1].

End OnePoint.

(** ** The rest of the class: the builder and the dependency declaration *)

Section Host.

Variables (Tag Handle : Type).

(** What an [Expr::ExprDeps] has been asked for, in the order of the
    [requires_expression] calls. *)
Definition ExprDeps := list Tag.

(** [exprDeps.requires_expression( tag )] *)
Definition requires_expression (exprDeps : ExprDeps) (tag : Tag) : ExprDeps :=
  exprDeps ++ [tag].

(** [exprDeps.requires_expression( tagList )] *)
Definition requires_expressions (exprDeps : ExprDeps) (tags : list Tag) : ExprDeps :=
  exprDeps ++ tags.

(** [advertise_dependents] (lines 147-156). *)
Definition advertise_dependents (e : AggregationEfficiency Tag Handle)
    (exprDeps : ExprDeps) : ExprDeps :=
  let d1 := requires_expressions exprDeps (abscissaeTagList_ e) in
  let d2 := requires_expression d1 (growthCoefTag_ e) in
  let d3 := requires_expression d2 (dissipationTag_ e) in
  requires_expression d3 (densityTag_ e).

(** Two objects with the same construction-time configuration. *)
Definition same_configuration (e1 e2 : AggregationEfficiency Tag Handle) : Prop :=
  abscissaeTagList_ e1 = abscissaeTagList_ e2 /\
  growthCoefTag_ e1 = growthCoefTag_ e2 /\
  dissipationTag_ e1 = dissipationTag_ e2 /\
  densityTag_ e1 = densityTag_ e2 /\
  l_ e1 = l_ e2 /\
  growthModel_ e1 = growthModel_ e2.

(** The same object under another growth-model string. *)
Definition with_growth_model (e : AggregationEfficiency Tag Handle)
    (growthModel : string) : AggregationEfficiency Tag Handle :=
  {| abscissaeTagList_ := abscissaeTagList_ e;
     growthCoefTag_ := growthCoefTag_ e;
     dissipationTag_ := dissipationTag_ e;
     densityTag_ := densityTag_ e;
     l_ := l_ e;
     growthModel_ := growthModel;
     abscissae_ := abscissae_ e;
     g0_ := g0_ e;
     eps_ := eps_ e;
     rho_ := rho_ e |}.

End Host.

(** [AggregationEfficiency::Builder] (lines 68-99): it stores the result tags
    for the host and the constructor arguments for [build]. *)
Module Builder.

Section WithTags.

Variables (Tag Handle : Type).

Record t : Type := Build {
  result : list Tag;
  abscissaetaglist_ : list Tag;
  growthcoeft_ : Tag;
  dissipationt_ : Tag;
  densityt_ : Tag;
  l_ : double;
  growthmodel_ : string
}.

(** [build()] (lines 87-90). *)
Definition build (b : t) : AggregationEfficiency Tag Handle :=
  construct Handle (abscissaetaglist_ b) (growthcoeft_ b) (dissipationt_ b)
            (densityt_ b) (l_ b) (growthmodel_ b).

End WithTags.

End Builder.

(** * Facts about binary64 arithmetic *)

Unset Implicit Arguments.

Section Binary64.

Lemma Prim2SF_zero : Prim2SF 0 = S754_zero false.
Proof. reflexivity. Qed.

Lemma Prim2SF_one : Prim2SF 1 = S754_finite false 4503599627370496 (-52).
Proof. reflexivity. Qed.

Lemma Prim2SF_nan : Prim2SF nan = S754_nan.
Proof. reflexivity. Qed.

Lemma gtb_spec x y : gtb x y = SFltb (Prim2SF y) (Prim2SF x).
Proof. unfold gtb. apply ltb_spec. Qed.

Lemma SFltb_zero_l x : SFltb (S754_zero false) x = SFis_pos x.
Proof. destruct x as [s|s| |s m e]; try destruct s; reflexivity. Qed.

Lemma SFltb_zero_r x : SFltb x (S754_zero false) = SFis_neg x.
Proof. destruct x as [s|s| |s m e]; try destruct s; reflexivity. Qed.

Lemma SFleb_zero_r x : SFleb x (S754_zero false) = negb (SFis_pos x) && negb (SFis_nan x).
Proof. destruct x as [s|s| |s m e]; try destruct s; reflexivity. Qed.

Lemma SFleb_zero_l x : SFleb (S754_zero false) x = negb (SFis_neg x) && negb (SFis_nan x).
Proof. destruct x as [s|s| |s m e]; try destruct s; reflexivity. Qed.

Lemma SFeqb_zero_r x : SFeqb x (S754_zero false) = SFis_zero x.
Proof. destruct x as [s|s| |s m e]; try destruct s; reflexivity. Qed.

Lemma gtb_zero x : gtb x 0 = SFis_pos (Prim2SF x).
Proof. rewrite gtb_spec, Prim2SF_zero. apply SFltb_zero_l. Qed.

Lemma ltb_zero x : (x <? 0)%float = SFis_neg (Prim2SF x).
Proof. rewrite ltb_spec, Prim2SF_zero. apply SFltb_zero_r. Qed.

Lemma leb_zero x :
  (x <=? 0)%float = negb (SFis_pos (Prim2SF x)) && negb (SFis_nan (Prim2SF x)).
Proof. rewrite leb_spec, Prim2SF_zero. apply SFleb_zero_r. Qed.

Lemma zero_leb x :
  (0 <=? x)%float = negb (SFis_neg (Prim2SF x)) && negb (SFis_nan (Prim2SF x)).
Proof. rewrite leb_spec, Prim2SF_zero. apply SFleb_zero_l. Qed.

Lemma is_zero_spec x : is_zero x = SFis_zero (Prim2SF x).
Proof. unfold is_zero. rewrite FloatAxioms.eqb_spec. apply SFeqb_zero_r. Qed.

Lemma SFcompare_refl x : SFcompare x x = if SFis_nan x then None else Some Eq.
Proof.
  destruct x as [s|s| |s m e]; try destruct s; cbn; try reflexivity;
    rewrite Z.compare_refl, Pos.compare_cont_refl; reflexivity.
Qed.

Lemma is_nan_spec x : is_nan x = SFis_nan (Prim2SF x).
Proof.
  unfold is_nan. rewrite FloatAxioms.eqb_spec. unfold SFeqb. rewrite SFcompare_refl.
  destruct (SFis_nan (Prim2SF x)); reflexivity.
Qed.

Lemma eq_nan_of_spec x : Prim2SF x = S754_nan -> x = nan.
Proof. intros H. apply Prim2SF_inj. rewrite H. reflexivity. Qed.

(** Comparison is antisymmetric, and [Eq] means the same double up to the
    sign of zero. *)
Lemma SFcompare_swap x y : SFcompare y x = option_map CompOpp (SFcompare x y).
Proof.
  destruct x as [s|s| |s m e], y as [s'|s'| |s' m' e'];
    try destruct s; try destruct s'; cbn; try reflexivity;
    rewrite (Z.compare_antisym e e'); destruct (e ?= e')%Z; cbn; try reflexivity;
    rewrite (Pos.compare_cont_antisym m m' Eq); reflexivity.
Qed.

Lemma SFcompare_Eq x y :
  SFcompare x y = Some Eq -> x = y \/ (SFis_zero x = true /\ SFis_zero y = true).
Proof.
  destruct x as [s|s| |s m e], y as [s'|s'| |s' m' e'];
    try destruct s; try destruct s'; cbn; intros H; try discriminate; auto;
    left; destruct (e ?= e')%Z eqn:He; try discriminate;
    apply Z.compare_eq in He; subst e';
    injection H as H;
    try (apply (f_equal CompOpp) in H; rewrite CompOpp_involutive in H; cbn in H);
    apply Pos.compare_eq in H; subst; reflexivity.
Qed.

Lemma SFltb_asym x y : SFltb x y = true -> SFltb y x = false.
Proof.
  unfold SFltb. rewrite (SFcompare_swap x y).
  destruct (SFcompare x y) as [[ | | ]|]; cbn; congruence.
Qed.

Lemma SFltb_false_cases x y :
  SFltb x y = false -> SFltb y x = false ->
  SFcompare x y = Some Eq \/ SFis_nan x = true \/ SFis_nan y = true.
Proof.
  unfold SFltb. rewrite (SFcompare_swap x y).
  destruct (SFcompare x y) as [[ | | ]|] eqn:Hc; cbn; try congruence; auto.
  intros _ _. right.
  destruct x as [s|s| |s m e], y as [s'|s'| |s' m' e']; cbn in *;
    auto; discriminate.
Qed.

(** Addition commutes, bit for bit. *)
Lemma SFadd_comm x y : SF64add x y = SF64add y x.
Proof.
  destruct x as [sx|sx| |sx mx ex], y as [sy|sy| |sy my ey]; try reflexivity;
    try (destruct sx, sy; reflexivity).
  unfold SF64add, SFadd. rewrite (Z.min_comm ey ex). f_equal. apply Z.add_comm.
Qed.

Lemma add_comm x y : (x + y = y + x)%float.
Proof. apply Prim2SF_inj. rewrite !add_spec. apply SFadd_comm. Qed.

(** Signs of the results. *)
Lemma binary_round_aux_sign s m e l :
  sign_is s (binary_round_aux prec emax s m e l).
Proof.
  unfold binary_round_aux.
  destruct (shr_fexp prec emax m e l) as [mrs e'].
  destruct (shr_fexp prec emax _ e' loc_Exact) as [mrs' e''].
  destruct (shr_m mrs'); cbn; auto.
  destruct (Z.leb _ _); cbn; auto.
Qed.

Lemma sign_is_true_not_pos x : sign_is true x -> SFis_pos x = false.
Proof. destruct x as [s|s| |s m e]; cbn; intros; subst; reflexivity. Qed.

Lemma sign_is_false_not_neg x : sign_is false x -> SFis_neg x = false.
Proof. destruct x as [s|s| |s m e]; cbn; intros; subst; reflexivity. Qed.

Lemma SFis_pos_sign x : SFis_pos x = true -> sign_is false x.
Proof. destruct x as [s|s| |s m e]; try destruct s; cbn; congruence. Qed.

Lemma SFis_neg_sign x : SFis_neg x = true -> sign_is true x.
Proof. destruct x as [s|s| |s m e]; try destruct s; cbn; congruence. Qed.

Lemma SFmul_sign sx sy x y :
  sign_is sx x -> sign_is sy y -> sign_is (xorb sx sy) (SF64mul x y).
Proof.
  destruct x as [s|s| |s m e], y as [s'|s'| |s' m' e']; cbn; intros; subst; auto.
  apply binary_round_aux_sign.
Qed.

Lemma SFdiv_sign sx sy x y :
  sign_is sx x -> sign_is sy y -> sign_is (xorb sx sy) (SF64div x y).
Proof.
  destruct x as [s|s| |s m e], y as [s'|s'| |s' m' e']; cbn; intros; subst; auto.
  match goal with
  | |- context [SFdiv_core_binary ?a ?b ?c ?d ?e ?f] =>
      destruct (SFdiv_core_binary a b c d e f) as [[mz ez] lz]
  end.
  apply binary_round_aux_sign.
Qed.

Lemma SFadd_sign_false x y :
  sign_is false x -> sign_is false y -> sign_is false (SF64add x y).
Proof.
  destruct x as [s|s| |s m e], y as [s'|s'| |s' m' e']; cbn; intros; subst;
    cbn; auto.
  unfold binary_round.
  match goal with
  | |- context [shl_align ?a ?b ?c] => destruct (shl_align a b c) as [mz ez]
  end.
  apply binary_round_aux_sign.
Qed.

(** Zeros and NaNs absorb in products; NaN absorbs in quotients and sums. *)
Lemma SFmul_zero_or_nan_l x y :
  SFis_zero x || SFis_nan x = true ->
  SFis_zero (SF64mul x y) || SFis_nan (SF64mul x y) = true.
Proof.
  destruct x as [s|s| |s m e], y as [s'|s'| |s' m' e']; cbn; congruence.
Qed.

Lemma SFmul_zero_or_nan_r x y :
  SFis_zero y || SFis_nan y = true ->
  SFis_zero (SF64mul x y) || SFis_nan (SF64mul x y) = true.
Proof.
  destruct x as [s|s| |s m e], y as [s'|s'| |s' m' e']; cbn; congruence.
Qed.

Lemma mul_nan_l x : (nan * x = nan)%float.
Proof. apply Prim2SF_inj. rewrite mul_spec, Prim2SF_nan. reflexivity. Qed.

Lemma mul_nan_r x : (x * nan = nan)%float.
Proof.
  apply Prim2SF_inj. rewrite mul_spec, Prim2SF_nan.
  destruct (Prim2SF x); reflexivity.
Qed.

Lemma div_nan_r x : (x / nan = nan)%float.
Proof.
  apply Prim2SF_inj. rewrite div_spec, Prim2SF_nan.
  destruct (Prim2SF x); reflexivity.
Qed.

Lemma add_nan_of_arg x y :
  SFis_nan (Prim2SF x) = true \/ SFis_nan (Prim2SF y) = true -> (x + y = nan)%float.
Proof.
  intros H. apply Prim2SF_inj. rewrite add_spec, Prim2SF_nan.
  destruct (Prim2SF x), (Prim2SF y); cbn in *; destruct H; try discriminate;
    reflexivity.
Qed.

End Binary64.

(** * Vectors, loops and the two member functions *)

Section StoreFacts.

Variable A : Type.

Lemma store_length (v : list A) k x v' :
  store v k x = Some v' -> List.length v' = List.length v.
Proof.
  revert k v'. induction v as [|y v IH]; intros [|k] v' H; cbn in H;
    try discriminate.
  - injection H as <-. reflexivity.
  - destruct (store v k x) as [w|] eqn:Hw; try discriminate.
    injection H as <-. cbn. f_equal. eauto.
Qed.

Lemma store_same (v : list A) k x v' :
  store v k x = Some v' -> nth_error v' k = Some x.
Proof.
  revert k v'. induction v as [|y v IH]; intros [|k] v' H; cbn in H;
    try discriminate.
  - injection H as <-. reflexivity.
  - destruct (store v k x) as [w|] eqn:Hw; try discriminate.
    injection H as <-. cbn. eauto.
Qed.

Lemma store_other (v : list A) k x v' k' :
  store v k x = Some v' -> k' <> k -> nth_error v' k' = nth_error v k'.
Proof.
  revert k k' v'. induction v as [|y v IH]; intros [|k] k' v' H Hk; cbn in H;
    try discriminate.
  - injection H as <-. destruct k'; [contradiction | reflexivity].
  - destruct (store v k x) as [w|] eqn:Hw; try discriminate.
    injection H as <-. destruct k'; cbn; [reflexivity | eauto].
Qed.

Lemma store_in_range (v : list A) k x :
  k < List.length v -> exists v', store v k x = Some v'.
Proof.
  revert k. induction v as [|y v IH]; intros [|k] H; cbn in *; try lia.
  - eauto.
  - destruct (IH k) as [w Hw]; [lia|]. rewrite Hw. cbn. eauto.
Qed.

End StoreFacts.

Section ExpressionFacts.

Variables (Point Tag Handle : Type).

Implicit Types (e : AggregationEfficiency Tag Handle) (mem : Memory Point Handle).
Implicit Types (s : EvalState Point) (cand : candidate).

(** One iteration stores the field of its pair at [idx] and moves [idx] on. *)
Lemma pair_body_inv e mem cand i j s s' :
  pair_body e mem cand i j s = Some s' ->
  exists f, written_field e mem cand i j = Some f /\
            store (results s) (idx s) f = Some (results s') /\
            idx s' = S (idx s).
Proof.
  unfold pair_body, written_field, bind.
  destruct (abscissa e mem i) as [ri|]; try discriminate.
  destruct (abscissa e mem j) as [rj|]; try discriminate.
  destruct (option_map mem (g0_ e)) as [g0|]; try discriminate.
  destruct (option_map mem (rho_ e)) as [rho|]; try discriminate.
  destruct (option_map mem (eps_ e)) as [eps|]; try discriminate.
  destruct (store _ _ _) as [res|] eqn:Hst; try discriminate.
  intros H. injection H as <-. cbn. eexists. split; [reflexivity|].
  split; [exact Hst | reflexivity].
Qed.

Lemma pair_body_runs e mem cand i j s f :
  written_field e mem cand i j = Some f ->
  idx s < List.length (results s) ->
  exists s', pair_body e mem cand i j s = Some s'.
Proof.
  unfold pair_body, written_field, bind.
  destruct (abscissa e mem i) as [ri|]; try discriminate.
  destruct (abscissa e mem j) as [rj|]; try discriminate.
  destruct (option_map mem (g0_ e)) as [g0|]; try discriminate.
  destruct (option_map mem (rho_ e)) as [rho|]; try discriminate.
  destruct (option_map mem (eps_ e)) as [eps|]; try discriminate.
  intros _ Hlt.
  match goal with
  | |- context [store ?v ?k ?x] => destruct (store_in_range _ v k x Hlt) as [w Hw]
  end.
  rewrite Hw. eauto.
Qed.

(** The inner loop, from column [j0], [n] columns to go. *)
Lemma inner_loop_inv e mem cand i n : forall j0 s s',
  for_from n j0 (pair_body e mem cand i) s = Some s' ->
  idx s' = idx s + n /\
  List.length (results s') = List.length (results s) /\
  (forall k, k < idx s \/ idx s + n <= k ->
             nth_error (results s') k = nth_error (results s) k) /\
  (forall b, b < n ->
             exists f, written_field e mem cand i (j0 + b) = Some f /\
                       nth_error (results s') (idx s + b) = Some f).
Proof.
  induction n as [|n IH]; intros j0 s s' H; cbn in H.
  - injection H as <-. repeat split; try lia; auto; intros; lia.
  - unfold bind in H.
    destruct (pair_body e mem cand i j0 s) as [s1|] eqn:H1; try discriminate.
    destruct (pair_body_inv _ _ _ _ _ _ _ H1) as (f & Hf & Hst & Hidx).
    destruct (IH _ _ _ H) as (Ji & Jl & Jo & Jw).
    split; [lia|]. split; [rewrite Jl; eapply store_length; eauto|].
    split.
    + intros k Hk. rewrite Jo by lia. eapply store_other; eauto. lia.
    + intros [|b] Hb.
      * exists f. rewrite Nat.add_0_r. split; [exact Hf|].
        rewrite Nat.add_0_r, Jo by lia. eapply store_same; eauto.
      * destruct (Jw b) as (f' & Hf' & Hn); [lia|]. exists f'.
        rewrite <- Nat.add_succ_comm. split; [exact Hf'|].
        rewrite Hidx in Hn. rewrite <- Nat.add_succ_comm. exact Hn.
Qed.

(** The outer loop, from row [i0], [n] rows of [N] columns to go. *)
Lemma outer_loop_inv e mem cand N n : forall i0 s s',
  for_from n i0 (fun i => for_loop N (pair_body e mem cand i)) s = Some s' ->
  idx s' = idx s + n * N /\
  List.length (results s') = List.length (results s) /\
  (forall k, k < idx s \/ idx s + n * N <= k ->
             nth_error (results s') k = nth_error (results s) k) /\
  (forall a b, a < n -> b < N ->
             exists f, written_field e mem cand (i0 + a) b = Some f /\
                       nth_error (results s') (idx s + a * N + b) = Some f).
Proof.
  induction n as [|n IH]; intros i0 s s' H; cbn in H.
  - injection H as <-. repeat split; try lia; auto; intros; lia.
  - unfold bind in H.
    destruct (for_loop N (pair_body e mem cand i0) s) as [s1|] eqn:H1;
      try discriminate.
    destruct (inner_loop_inv _ _ _ _ _ _ _ _ H1) as (Ii & Il & Io & Iw).
    destruct (IH _ _ _ H) as (Ji & Jl & Jo & Jw).
    split; [cbn; lia|]. split; [congruence|]. split.
    + intros k Hk. cbn in Hk. rewrite Jo by lia. apply Io. lia.
    + intros [|a] b Ha Hb.
      * destruct (Iw b Hb) as (f & Hf & Hn). exists f.
        rewrite Nat.add_0_r. split; [exact Hf|].
        cbn. rewrite Nat.add_0_r, Jo by lia. exact Hn.
      * destruct (Jw a b) as (f & Hf & Hn); [lia | exact Hb |]. exists f.
        rewrite <- Nat.add_succ_comm. split; [exact Hf|].
        rewrite Ii in Hn. cbn.
        replace (idx s + (N + a * N) + b) with (idx s + N + a * N + b) by lia.
        exact Hn.
Qed.

(** What a returning [evaluate] has done, for a growth model it has a
    branch for. *)
Lemma evaluate_inv e mem cand res res' :
  select_candidate (growthModel_ e) = Some cand ->
  evaluate e mem res = Some res' ->
  let N := List.length (abscissae_ e) in
  List.length res' = List.length res /\
  (forall k, N * N <= k -> nth_error res' k = nth_error res k) /\
  (forall i j, i < N -> j < N ->
     exists f, written_field e mem cand i j = Some f /\
               nth_error res' (i * N + j) = Some f).
Proof.
  intros Hsel H N. unfold evaluate in H. destruct res as [|r0 res]; try discriminate.
  rewrite Hsel in H. fold N in H.
  match type of H with
  | option_map _ ?run = _ => destruct run as [s'|] eqn:Hrun; try discriminate
  end.
  injection H as <-.
  destruct (outer_loop_inv _ _ _ _ _ _ _ _ Hrun) as (Ji & Jl & Jo & Jw).
  cbn [idx results] in *.
  split; [exact Jl|]. split.
  - intros k Hk. apply Jo. lia.
  - intros i j Hi Hj. destruct (Jw i j Hi Hj) as (f & Hf & Hn).
    exists f. split; [exact Hf | exact Hn].
Qed.

Lemma written_field_defined e mem cand i j :
  bound e -> i < List.length (abscissae_ e) -> j < List.length (abscissae_ e) ->
  exists f, written_field e mem cand i j = Some f.
Proof.
  intros (Hg & He & Hr) Hi Hj. unfold written_field, abscissa, bind.
  destruct (nth_error (abscissae_ e) i) as [hi|] eqn:Hni;
    [|apply nth_error_None in Hni; lia].
  destruct (nth_error (abscissae_ e) j) as [hj|] eqn:Hnj;
    [|apply nth_error_None in Hnj; lia].
  destruct (g0_ e); [|contradiction]. destruct (rho_ e); [|contradiction].
  destruct (eps_ e); [|contradiction]. cbn. eauto.
Qed.

Lemma inner_loop_runs e mem cand i n : forall j0 s,
  bound e -> i < List.length (abscissae_ e) ->
  j0 + n <= List.length (abscissae_ e) ->
  idx s + n <= List.length (results s) ->
  exists s', for_from n j0 (pair_body e mem cand i) s = Some s'.
Proof.
  induction n as [|n IH]; intros j0 s Hb Hi Hj Hl; cbn.
  - eauto.
  - destruct (written_field_defined e mem cand i j0 Hb Hi) as [f Hf]; [lia|].
    destruct (pair_body_runs _ _ _ _ _ s _ Hf) as [s1 H1]; [lia|].
    rewrite H1. cbn.
    destruct (pair_body_inv _ _ _ _ _ _ _ H1) as (f' & _ & Hst & Hidx).
    apply IH; auto; try lia.
    rewrite (store_length _ _ _ _ _ Hst). lia.
Qed.

Lemma outer_loop_runs e mem cand n : forall i0 s,
  let N := List.length (abscissae_ e) in
  bound e -> i0 + n <= N ->
  idx s + n * N <= List.length (results s) ->
  exists s', for_from n i0 (fun i => for_loop N (pair_body e mem cand i)) s = Some s'.
Proof.
  induction n as [|n IH]; intros i0 s N Hb Hi Hl; cbn.
  - eauto.
  - cbn in Hl.
    destruct (inner_loop_runs e mem cand i0 N 0 s Hb) as [s1 H1];
      try (fold N; lia).
    unfold for_loop at 1. rewrite H1. cbn.
    destruct (inner_loop_inv _ _ _ _ _ _ _ _ H1) as (Ii & Il & _ & _).
    apply IH; auto; try (fold N; lia).
Qed.

(** [evaluate] returns whenever the inputs are bound and the result vector
    has room for the [N * N] fields. *)
Lemma evaluate_runs e mem res :
  bound e -> res <> [] ->
  List.length (abscissae_ e) * List.length (abscissae_ e) <= List.length res ->
  exists res', evaluate e mem res = Some res'.
Proof.
  intros Hb Hne Hl. unfold evaluate. destruct res as [|r0 res]; [contradiction|].
  destruct (select_candidate (growthModel_ e)) as [cand|]; [|eauto].
  match goal with
  | |- context [for_loop ?N ?body ?s0] =>
      destruct (outer_loop_runs e mem cand N 0 s0 Hb) as [s' Hs'];
        [lia | cbn [idx results]; lia |];
        change (for_loop N body s0) with (for_from N 0 body s0)
  end.
  rewrite Hs'. cbn. eauto.
Qed.

(** The branch taken is determined by the four strings. *)
Lemma select_candidate_recognized model :
  recognized model <-> select_candidate model <> None.
Proof.
  unfold recognized, select_candidate. split.
  - intros [-> | [-> | [-> | ->]]]; cbn; discriminate.
  - destruct (String.eqb_spec model "BULK_DIFFUSION"); auto.
    destruct (String.eqb_spec model "MONOSURFACE"); auto.
    destruct (String.eqb_spec model "CONSTANT"); auto.
    destruct (String.eqb_spec model "KINETIC"); auto.
    cbn. congruence.
Qed.

Lemma select_candidate_cases model cand :
  select_candidate model = Some cand ->
  cand = bulk_diffusion_candidate \/ cand = monosurface_candidate \/
  cand = constant_candidate.
Proof.
  unfold select_candidate.
  destruct (model =? "BULK_DIFFUSION")%string; [intros [= <-]; auto|].
  destruct (model =? "MONOSURFACE")%string; [intros [= <-]; auto|].
  destruct ((model =? "CONSTANT") || (model =? "KINETIC"))%string;
    [intros [= <-]; auto | discriminate].
Qed.

(** The value stored for a pair at a point, in terms of the inputs there. *)
Lemma written_field_value e mem cand i j f :
  written_field e mem cand i j = Some f ->
  exists hi hj hg hr he,
    nth_error (abscissae_ e) i = Some hi /\
    nth_error (abscissae_ e) j = Some hj /\
    g0_ e = Some hg /\ rho_ e = Some hr /\ eps_ e = Some he /\
    forall p, f p = efficiency cand (l_ e) (mem hg p) (mem hr p) (mem he p)
                               (mem hi p) (mem hj p).
Proof.
  unfold written_field, abscissa, bind.
  destruct (nth_error (abscissae_ e) i) as [hi|]; try discriminate.
  destruct (nth_error (abscissae_ e) j) as [hj|]; try discriminate.
  destruct (g0_ e) as [hg|]; try discriminate.
  destruct (rho_ e) as [hr|]; try discriminate.
  destruct (eps_ e) as [he|]; try discriminate.
  cbn. intros [= <-]. exists hi, hj, hg, hr, he. repeat split; reflexivity.
Qed.

End ExpressionFacts.

(** * The pointwise kernel *)

Section Kernel.

Lemma saturate_zero : saturate 0 = 0%float.
Proof. reflexivity. Qed.

Lemma clamp_not_positive t : gtb t 0 = false -> clamp t = 0%float.
Proof. unfold clamp, cond. intros ->. reflexivity. Qed.

Lemma clamp_positive t : gtb t 0 = true -> clamp t = t.
Proof. unfold clamp, cond. intros ->. reflexivity. Qed.

Lemma efficiency_not_positive_candidate cand l g0 rho eps ri rj :
  gtb (cand l g0 rho eps ri rj) 0 = false ->
  efficiency cand l g0 rho eps ri rj = 0%float.
Proof.
  intros H. unfold efficiency. rewrite clamp_not_positive by exact H.
  apply saturate_zero.
Qed.

(** The two identical branches. *)
Lemma monosurface_is_bulk_diffusion :
  monosurface_candidate = bulk_diffusion_candidate.
Proof. reflexivity. Qed.

(** The candidates under the guard are the quotients by the divisors. *)
Lemma bulk_diffusion_candidate_guarded l g0 rho eps ri rj :
  guard rho eps = true ->
  bulk_diffusion_candidate l g0 rho eps ri rj =
  (l * g0 / bulk_divisor (selected_radius ri rj) rho ri rj eps)%float.
Proof.
  unfold guard, bulk_diffusion_candidate, selected_radius, bulk_divisor, cond.
  intros ->. destruct (gtb ri rj); reflexivity.
Qed.

Lemma constant_candidate_guarded l g0 rho eps ri rj :
  guard rho eps = true ->
  constant_candidate l g0 rho eps ri rj =
  (l * g0 / constant_divisor rho ri rj eps)%float.
Proof.
  unfold guard, constant_candidate, constant_divisor, cond.
  intros ->. reflexivity.
Qed.

Lemma candidate_unguarded cand model l g0 rho eps ri rj :
  select_candidate model = Some cand ->
  guard rho eps = false -> cand l g0 rho eps ri rj = 0%float.
Proof.
  intros Hsel Hg. unfold guard in Hg.
  destruct (select_candidate_cases _ _ Hsel) as [-> | [-> | ->]];
    unfold bulk_diffusion_candidate, monosurface_candidate, constant_candidate, cond;
    rewrite Hg; reflexivity.
Qed.

Lemma guard_false_of_nonpositive rho eps :
  (rho <=? 0)%float = true \/ (eps <=? 0)%float = true -> guard rho eps = false.
Proof.
  unfold guard. rewrite !leb_zero, !gtb_zero.
  destruct (SFis_pos (Prim2SF rho)), (SFis_pos (Prim2SF eps)); cbn;
    intros [H | H]; congruence.
Qed.

Lemma not_positive_of_negative x : (x <? 0)%float = true -> gtb x 0 = false.
Proof.
  rewrite ltb_zero, gtb_zero. intros H.
  apply sign_is_true_not_pos, SFis_neg_sign, H.
Qed.

(** The saturation of a clamped value is never below zero. *)
Lemma SFsaturate_sign t :
  SFis_pos t = true ->
  sign_is false (SF64div t (SF64add (S754_finite false 4503599627370496 (-52)) t)).
Proof.
  intros H. apply (SFdiv_sign false false).
  - apply SFis_pos_sign, H.
  - apply SFadd_sign_false; [reflexivity | apply SFis_pos_sign, H].
Qed.

Lemma saturate_clamp_not_negative x : (saturate (clamp x) <? 0)%float = false.
Proof.
  destruct (gtb x 0) eqn:Hx.
  - rewrite clamp_positive by exact Hx. rewrite gtb_zero in Hx.
    rewrite ltb_zero. unfold saturate.
    rewrite div_spec, add_spec, Prim2SF_one.
    apply sign_is_false_not_neg, SFsaturate_sign, Hx.
  - rewrite clamp_not_positive by exact Hx. reflexivity.
Qed.

(** Symmetry of the CONSTANT / KINETIC candidate in the two radii. *)
Lemma constant_candidate_sym l g0 rho eps ri rj :
  constant_candidate l g0 rho eps ri rj = constant_candidate l g0 rho eps rj ri.
Proof. unfold constant_candidate. rewrite (add_comm ri rj). reflexivity. Qed.

(** The selected radius, with the arguments exchanged. *)
Lemma bulk_divisor_nan_sum r rho ri rj eps :
  (ri + rj = nan)%float -> bulk_divisor r rho ri rj eps = nan.
Proof.
  unfold bulk_divisor. intros ->.
  repeat (rewrite mul_nan_r || rewrite mul_nan_l). reflexivity.
Qed.

Lemma zero_same_sign a b :
  SFis_zero (Prim2SF a) = true -> SFis_zero (Prim2SF b) = true ->
  opposite_zeros a b = false -> a = b.
Proof.
  unfold opposite_zeros. intros Ha Hb H. apply Prim2SF_inj.
  destruct (Prim2SF a) as [sa| | |]; try discriminate.
  destruct (Prim2SF b) as [sb| | |]; try discriminate.
  destruct sa, sb; cbn in H; congruence.
Qed.

Lemma bulk_diffusion_candidate_sym l g0 rho eps ri rj :
  opposite_zeros ri rj = false ->
  bulk_diffusion_candidate l g0 rho eps ri rj =
  bulk_diffusion_candidate l g0 rho eps rj ri.
Proof.
  intros Hz. unfold bulk_diffusion_candidate. rewrite (add_comm rj ri).
  destruct (gtb rho 0 && gtb eps 0); [|reflexivity]. unfold cond.
  destruct (gtb ri rj) eqn:Hij, (gtb rj ri) eqn:Hji; try reflexivity.
  - rewrite gtb_spec in Hij, Hji. apply SFltb_asym in Hij. congruence.
  - rewrite gtb_spec in Hij, Hji.
    destruct (SFltb_false_cases _ _ Hij Hji) as [Heq | Hnan].
    + destruct (SFcompare_Eq _ _ Heq) as [H | [Hzj Hzi]].
      * apply Prim2SF_inj in H. subst rj. reflexivity.
      * rewrite (zero_same_sign ri rj Hzi Hzj Hz). reflexivity.
    + assert (Hs : (ri + rj = nan)%float)
        by (apply add_nan_of_arg; tauto).
      fold (bulk_divisor rj rho ri rj eps). fold (bulk_divisor ri rho ri rj eps).
      rewrite !bulk_divisor_nan_sum by exact Hs. reflexivity.
Qed.

(** The selected radius is one of the two and, between numbers, the larger. *)
Lemma selected_radius_is_larger ri rj :
  (selected_radius ri rj = ri \/ selected_radius ri rj = rj) /\
  (is_nan ri = false -> is_nan rj = false ->
   (ri <=? selected_radius ri rj)%float = true /\
   (rj <=? selected_radius ri rj)%float = true).
Proof.
  unfold selected_radius, cond. rewrite !is_nan_spec.
  destruct (gtb ri rj) eqn:H; (split; [auto|]); intros Hi Hj;
    rewrite gtb_spec in H; rewrite !leb_spec; unfold SFleb, SFltb in *;
    rewrite !SFcompare_refl, ?Hi, ?Hj; split; try reflexivity.
  - destruct (SFcompare (Prim2SF rj) (Prim2SF ri)) as [[ | | ]|];
      congruence.
  - rewrite (SFcompare_swap (Prim2SF rj) (Prim2SF ri)).
    destruct (SFcompare (Prim2SF rj) (Prim2SF ri)) as [[ | | ]|] eqn:Hc; cbn;
      try congruence.
    destruct (Prim2SF ri), (Prim2SF rj); cbn in *; discriminate.
Qed.

(** A radius sum of zero leaves no divisor that is a nonzero number. *)
Lemma nonzero_number_spec x :
  nonzero_number x = negb (SFis_zero (Prim2SF x) || SFis_nan (Prim2SF x)).
Proof.
  unfold nonzero_number. rewrite is_zero_spec, is_nan_spec.
  destruct (SFis_zero _), (SFis_nan _); reflexivity.
Qed.

Lemma mul_zero_or_nan_l x y :
  nonzero_number (x * y) = true -> nonzero_number x = true.
Proof.
  rewrite !nonzero_number_spec, mul_spec. intros H.
  destruct (SFis_zero (Prim2SF x) || SFis_nan (Prim2SF x)) eqn:Hx; [|reflexivity].
  rewrite (SFmul_zero_or_nan_l _ (Prim2SF y) Hx) in H. discriminate.
Qed.

Lemma mul_zero_or_nan_r x y :
  nonzero_number (x * y) = true -> nonzero_number y = true.
Proof.
  rewrite !nonzero_number_spec, mul_spec. intros H.
  destruct (SFis_zero (Prim2SF y) || SFis_nan (Prim2SF y)) eqn:Hy; [|reflexivity].
  rewrite (SFmul_zero_or_nan_r (Prim2SF x) _ Hy) in H. discriminate.
Qed.

Lemma nonzero_number_not_zero x : nonzero_number x = true -> is_zero x = false.
Proof. unfold nonzero_number. destruct (is_zero x); cbn; congruence. Qed.

End Kernel.

Section KernelSigns.

(** A positive factor times a factor that is not positive is not positive;
    likewise for a quotient by a divisor whose sign bit is clear. *)
Lemma SFmul_pos_not_pos l g :
  SFis_pos l = true -> SFis_pos g = false -> SFis_pos (SF64mul l g) = false.
Proof.
  intros Hl Hg.
  destruct l as [s|s| |s m e]; try destruct s; try discriminate;
    destruct g as [s'|s'| |s' m' e']; try destruct s'; try discriminate;
    try reflexivity.
  apply sign_is_true_not_pos. apply (binary_round_aux_sign true).
Qed.

Lemma SFdiv_not_pos n d :
  SFis_pos n = false -> sign_is false d -> SFis_pos (SF64div n d) = false.
Proof.
  intros Hn Hd.
  destruct n as [s|s| |s m e]; try destruct s; try discriminate;
    destruct d as [s'|s'| |s' m' e']; cbn in Hd; subst; try reflexivity;
    apply sign_is_true_not_pos; apply (SFdiv_sign true false); reflexivity.
Qed.

Lemma sign_false_of_gtb x : gtb x 0 = true -> sign_is false (Prim2SF x).
Proof. rewrite gtb_zero. apply SFis_pos_sign. Qed.

Lemma mul_sign_false x y :
  sign_is false (Prim2SF x) -> sign_is false (Prim2SF y) ->
  sign_is false (Prim2SF (x * y)).
Proof. intros Hx Hy. rewrite mul_spec. apply (SFmul_sign false false); assumption. Qed.

Lemma add_sign_false x y :
  sign_is false (Prim2SF x) -> sign_is false (Prim2SF y) ->
  sign_is false (Prim2SF (x + y)).
Proof. intros Hx Hy. rewrite add_spec. apply SFadd_sign_false; assumption. Qed.

Lemma quotient_not_positive l g d :
  gtb l 0 = true -> gtb g 0 = false -> sign_is false (Prim2SF d) ->
  gtb (l * g / d) 0 = false.
Proof.
  rewrite !gtb_zero. intros Hl Hg Hd. rewrite div_spec, mul_spec.
  apply SFdiv_not_pos; [apply SFmul_pos_not_pos; assumption | exact Hd].
Qed.

Lemma not_positive_of_leb_zero g : (g <=? 0)%float = true -> gtb g 0 = false.
Proof.
  rewrite leb_zero, gtb_zero. destruct (SFis_pos (Prim2SF g)); cbn; congruence.
Qed.

(** With a positive length parameter and positive radii, a growth rate that
    is not positive gives a candidate that is not positive. *)
Lemma candidate_not_positive model cand l g rho eps ri rj :
  select_candidate model = Some cand ->
  gtb l 0 = true -> gtb ri 0 = true -> gtb rj 0 = true ->
  gtb g 0 = false ->
  gtb (cand l g rho eps ri rj) 0 = false.
Proof.
  intros Hsel Hl Hi Hj Hg.
  destruct (guard rho eps) eqn:Hguard.
  - assert (Hrho : sign_is false (Prim2SF rho)).
    { apply sign_false_of_gtb. unfold guard in Hguard.
      destruct (gtb rho 0); [reflexivity | discriminate]. }
    assert (Heps : sign_is false (Prim2SF eps)).
    { apply sign_false_of_gtb. unfold guard in Hguard.
      destruct (gtb eps 0); [reflexivity | rewrite andb_false_r in Hguard;
                                           discriminate]. }
    pose proof (sign_false_of_gtb _ Hi) as Hri.
    pose proof (sign_false_of_gtb _ Hj) as Hrj.
    pose proof (add_sign_false _ _ Hri Hrj) as Hsum.
    assert (Hsel_r : sign_is false (Prim2SF (selected_radius ri rj)))
      by (unfold selected_radius, cond; destruct (gtb ri rj); assumption).
    destruct (select_candidate_cases _ _ Hsel) as [-> | [-> | ->]].
    + rewrite bulk_diffusion_candidate_guarded by exact Hguard.
      apply quotient_not_positive; try assumption.
      unfold bulk_divisor. repeat apply mul_sign_false; assumption.
    + rewrite monosurface_is_bulk_diffusion.
      rewrite bulk_diffusion_candidate_guarded by exact Hguard.
      apply quotient_not_positive; try assumption.
      unfold bulk_divisor. repeat apply mul_sign_false; assumption.
    + rewrite constant_candidate_guarded by exact Hguard.
      apply quotient_not_positive; try assumption.
      unfold constant_divisor. repeat apply mul_sign_false; assumption.
  - rewrite (candidate_unguarded _ _ _ _ _ _ _ _ Hsel Hguard). reflexivity.
Qed.

End KernelSigns.

(** * Rounding to nearest even, against the real value *)

Section Rounding.

Local Open Scope Z_scope.

Lemma bpow_pos e : (0 < bpow e)%R.
Proof. apply powerRZ_lt. lra. Qed.

Lemma bpow_add a b : bpow (a + b) = (bpow a * bpow b)%R.
Proof. apply powerRZ_add. lra. Qed.

Lemma bpow_succ e : bpow (e + 1) = (2 * bpow e)%R.
Proof.
  rewrite bpow_add. assert (H : bpow 1 = 2%R) by (unfold bpow; simpl; lra).
  rewrite H. lra.
Qed.

Lemma bpow_IZR n : 0 <= n -> bpow n = IZR (2 ^ n).
Proof.
  intros Hn. unfold bpow. rewrite <- (Z2Nat.id n Hn) at 1 2.
  rewrite <- pow_powerRZ, pow_IZR. reflexivity.
Qed.

Lemma bpow_le a b : a <= b -> (bpow a <= bpow b)%R.
Proof.
  intros H. replace b with (a + (b - a)) by lia. rewrite bpow_add.
  rewrite (bpow_IZR (b - a)) by lia.
  assert (1 <= 2 ^ (b - a)) by (pose proof (Z.pow_pos_nonneg 2 (b - a)); lia).
  apply IZR_le in H0. pose proof (bpow_pos a). nra.
Qed.

Lemma bpow_lt a b : a < b -> (bpow a < bpow b)%R.
Proof.
  intros H. replace b with (a + (b - a)) by lia. rewrite bpow_add.
  rewrite (bpow_IZR (b - a)) by lia.
  assert (2 <= 2 ^ (b - a)).
  { replace 2 with (2 ^ 1) at 1 by reflexivity. apply Z.pow_le_mono_r; lia. }
  apply IZR_le in H0. pose proof (bpow_pos a). nra.
Qed.

Lemma shr_m_shr_1 mrs : 0 <= shr_m mrs -> shr_m (shr_1 mrs) = shr_m mrs / 2.
Proof.
  destruct mrs as [m r s]. cbn [shr_m]. intros Hm.
  destruct m as [|[p|p|]|p]; try lia; cbn [shr_1 shr_m]; try reflexivity.
  - rewrite Pos2Z.inj_xI. apply Z.div_unique with 1; lia.
  - rewrite Pos2Z.inj_xO. apply Z.div_unique with 0; lia.
Qed.

Lemma shr_1_nonneg mrs : 0 <= shr_m mrs -> 0 <= shr_m (shr_1 mrs).
Proof. intros H. rewrite shr_m_shr_1 by exact H. apply Z.div_pos; lia. Qed.

Lemma shr_1_locates v mrs e : locates v mrs e -> locates v (shr_1 mrs) (e + 1).
Proof.
  intros (Hm & Hv & Hi & He). split; [apply shr_1_nonneg, Hm|].
  rewrite bpow_succ. pose proof (bpow_pos e) as Hb.
  destruct mrs as [m r s]. cbn [shr_m] in *. unfold rec_inexact in *.
  destruct m as [|[p|p|]|p]; try lia; cbn [shr_1 shr_m shr_r shr_s] in *.
  - change (0 + 1) with 1 in *. rewrite orb_false_l.
    split; [lra|]. split; intros H; [specialize (Hi H) | specialize (He H)]; lra.
  - rewrite Pos2Z.inj_xI in Hv, Hi. rewrite !plus_IZR, !mult_IZR in Hv.
    rewrite plus_IZR, mult_IZR in Hi. rewrite plus_IZR.
    split; [lra|]. split; [intros _; lra | discriminate].
  - rewrite Pos2Z.inj_xO in Hv, Hi, He. rewrite !plus_IZR, !mult_IZR in Hv.
    rewrite mult_IZR in Hi, He. rewrite plus_IZR. rewrite orb_false_l.
    split; [lra|]. split; intros H; [specialize (Hi H) | specialize (He H)]; lra.
  - change (1 + 1) with 2 in Hv. change (0 + 1) with 1.
    split; [lra|]. split; [intros _; lra | discriminate].
Qed.

Lemma iter_shr_1_locates v p : forall mrs e,
  locates v mrs e -> locates v (SpecFloat.iter_pos shr_1 p mrs) (e + Z.pos p).
Proof.
  induction p as [p IH|p IH|]; intros mrs e H; cbn [SpecFloat.iter_pos].
  - replace (e + Z.pos p~1) with (e + 1 + Z.pos p + Z.pos p) by lia.
    apply IH, IH, shr_1_locates, H.
  - replace (e + Z.pos p~0) with (e + Z.pos p + Z.pos p) by lia.
    apply IH, IH, H.
  - apply shr_1_locates, H.
Qed.

Lemma shr_m_iter p : forall mrs,
  0 <= shr_m mrs -> shr_m (SpecFloat.iter_pos shr_1 p mrs) = shr_m mrs / 2 ^ Z.pos p.
Proof.
  assert (Hnn : forall q mrs, 0 <= shr_m mrs -> 0 <= shr_m (SpecFloat.iter_pos shr_1 q mrs)).
  { induction q as [q IH|q IH|]; intros mrs H; cbn [SpecFloat.iter_pos].
    - apply IH, IH, shr_1_nonneg, H.
    - apply IH, IH, H.
    - apply shr_1_nonneg, H. }
  induction p as [p IH|p IH|]; intros mrs H; cbn [SpecFloat.iter_pos].
  - rewrite IH, IH, shr_m_shr_1 by (auto using shr_1_nonneg).
    rewrite !Z.div_div by (try apply Z.pow_pos_nonneg; lia).
    f_equal. replace (Z.pos p~1) with (1 + Z.pos p + Z.pos p) by lia.
    rewrite !Z.pow_add_r by lia. lia.
  - rewrite IH, IH by auto.
    rewrite !Z.div_div by (try apply Z.pow_pos_nonneg; lia).
    f_equal. replace (Z.pos p~0) with (Z.pos p + Z.pos p) by lia.
    rewrite !Z.pow_add_r by lia. lia.
  - rewrite shr_m_shr_1 by exact H. reflexivity.
Qed.

Lemma fexp_64 x : fexp prec emax x = fexp64 x.
Proof. reflexivity. Qed.

Lemma digits2_pos_size p : digits2_pos p = Pos.size p.
Proof. induction p as [q IH|q IH|]; cbn; congruence. Qed.

Lemma Zdigits2_nonneg m : 0 <= Zdigits2 m.
Proof. destruct m; cbn; lia. Qed.

Lemma Zdigits2_bounds m : 0 < m -> 2 ^ (Zdigits2 m - 1) <= m < 2 ^ Zdigits2 m.
Proof.
  destruct m as [|p|p]; try lia. intros _. cbn [Zdigits2].
  rewrite digits2_pos_size.
  pose proof (Pos.size_gt p) as Hgt. pose proof (Pos.size_le p) as Hle.
  apply Pos2Z.pos_lt_pos in Hgt. apply Pos2Z.pos_le_pos in Hle.
  rewrite Pos2Z.inj_pow in Hgt, Hle. rewrite Pos2Z.inj_xO in Hle.
  split; [|exact Hgt].
  assert (He : 2 ^ Z.pos (Pos.size p) = 2 * 2 ^ (Z.pos (Pos.size p) - 1)).
  { rewrite <- Z.pow_succ_r by lia. f_equal. lia. }
  change (2 * 1) with 2 in Hle. lia.
Qed.

Lemma Zdigits2_unique m d : 2 ^ (d - 1) <= m < 2 ^ d -> 0 < m -> Zdigits2 m = d.
Proof.
  intros [Hlo Hhi] Hm. pose proof (Zdigits2_bounds m Hm) as [Hlo' Hhi'].
  pose proof (Zdigits2_nonneg m).
  assert (0 < d).
  { destruct (Z_lt_le_dec 0 d); [assumption|].
    assert (2 ^ d <= 2 ^ 0) by (apply Z.pow_le_mono_r; lia). simpl in *. lia. }
  destruct (Z_lt_le_dec (Zdigits2 m) d) as [Hlt|Hge].
  - assert (2 ^ Zdigits2 m <= 2 ^ (d - 1)) by (apply Z.pow_le_mono_r; lia). lia.
  - destruct (Z_lt_le_dec d (Zdigits2 m)) as [Hlt|Hge']; [|lia].
    assert (2 ^ d <= 2 ^ (Zdigits2 m - 1)) by (apply Z.pow_le_mono_r; lia). lia.
Qed.

Lemma Zdigits2_div_pow2 m n :
  0 < m -> 0 <= n -> n < Zdigits2 m -> Zdigits2 (m / 2 ^ n) = Zdigits2 m - n.
Proof.
  intros Hm Hn Hlt. pose proof (Zdigits2_bounds m Hm) as [Hlo Hhi].
  assert (Hp : 0 < 2 ^ n) by (apply Z.pow_pos_nonneg; lia).
  assert (Hq : 2 ^ (Zdigits2 m - n - 1) <= m / 2 ^ n).
  { apply Z.div_le_lower_bound; [lia|]. rewrite <- Z.pow_add_r by lia.
    replace (n + (Zdigits2 m - n - 1)) with (Zdigits2 m - 1) by lia. exact Hlo. }
  assert (Hq' : m / 2 ^ n < 2 ^ (Zdigits2 m - n)).
  { apply Z.div_lt_upper_bound; [lia|]. rewrite <- Z.pow_add_r by lia.
    replace (n + (Zdigits2 m - n)) with (Zdigits2 m) by lia. exact Hhi. }
  apply Zdigits2_unique; [split; assumption|].
  pose proof (Z.pow_pos_nonneg 2 (Zdigits2 m - n - 1)). lia.
Qed.

Lemma Zdigits2_div_pow2_zero m n :
  0 <= m -> 0 <= n -> Zdigits2 m <= n -> m / 2 ^ n = 0.
Proof.
  intros Hm Hn Hle. destruct (Z.eq_dec m 0) as [->|Hne].
  - apply Z.div_0_l. pose proof (Z.pow_pos_nonneg 2 n). lia.
  - apply Z.div_small. pose proof (Zdigits2_bounds m ltac:(lia)) as [_ Hhi].
    assert (2 ^ Zdigits2 m <= 2 ^ n) by (apply Z.pow_le_mono_r; lia). lia.
Qed.

Lemma shr_record_of_loc_m m l : shr_m (shr_record_of_loc m l) = m.
Proof. destruct l as [|[ | | ]]; reflexivity. Qed.

Lemma fexp64_ge x : -1074 <= fexp64 x.
Proof. unfold fexp64. lia. Qed.

(** The first step of rounding: truncation to the exponent of the format. *)
Lemma shr_fexp_spec v m e l :
  0 <= m -> locates v (shr_record_of_loc m l) e ->
  exists mrs1 e1,
    shr_fexp prec emax m e l = (mrs1, e1) /\
    locates v mrs1 e1 /\
    e1 = Z.max e (fexp64 (Zdigits2 m + e)) /\
    shr_m mrs1 = m / 2 ^ (e1 - e) /\
    fexp64 (Zdigits2 (shr_m mrs1) + e1) <= e1.
Proof.
  intros Hm Hloc. unfold shr_fexp. rewrite fexp_64.
  remember (fexp64 (Zdigits2 m + e) - e) as n eqn:Hn.
  pose proof (Zdigits2_nonneg m) as Hd.
  destruct n as [|p|p]; unfold shr.
  - exists (shr_record_of_loc m l), e. rewrite shr_record_of_loc_m.
    replace (Z.max e (fexp64 (Zdigits2 m + e))) with e by lia.
    rewrite Z.sub_diag, Z.div_1_r.
    split; [reflexivity|]. split; [exact Hloc|]. split; [reflexivity|].
    split; [reflexivity | lia].
  - exists (SpecFloat.iter_pos shr_1 p (shr_record_of_loc m l)), (e + Z.pos p).
    assert (He1 : e + Z.pos p = fexp64 (Zdigits2 m + e)) by lia.
    rewrite shr_m_iter, shr_record_of_loc_m by (rewrite shr_record_of_loc_m; exact Hm).
    replace (e + Z.pos p - e) with (Z.pos p) by lia.
    split; [reflexivity|]. split; [apply iter_shr_1_locates, Hloc|].
    split; [lia|]. split; [reflexivity|].
    destruct (Z_lt_le_dec (Z.pos p) (Zdigits2 m)) as [Hlt|Hge].
    + assert (0 < m) by (destruct m; cbn in *; lia).
      rewrite Zdigits2_div_pow2 by lia.
      replace (Zdigits2 m - Z.pos p + (e + Z.pos p)) with (Zdigits2 m + e) by lia.
      lia.
    + rewrite Zdigits2_div_pow2_zero by lia. cbn [Zdigits2].
      pose proof (fexp64_ge (Zdigits2 m + e)). unfold fexp64 in *. lia.
  - exists (shr_record_of_loc m l), e. rewrite shr_record_of_loc_m.
    replace (Z.max e (fexp64 (Zdigits2 m + e))) with e by lia.
    rewrite Z.sub_diag, Z.div_1_r.
    split; [reflexivity|]. split; [exact Hloc|]. split; [reflexivity|].
    split; [reflexivity | lia].
Qed.

Lemma round_nearest_even_cases mrs :
  let m2 := round_nearest_even (shr_m mrs) (loc_of_shr_record mrs) in
  m2 = shr_m mrs \/ (m2 = shr_m mrs + 1 /\ rec_inexact mrs = true).
Proof.
  destruct mrs as [m [|] [|]]; cbn; auto.
  destruct (Z.even m); auto.
Qed.

Lemma bpow_le_inv a b : (bpow a <= bpow b)%R -> a <= b.
Proof.
  intros H. destruct (Z_lt_le_dec b a) as [Hlt|]; [|assumption].
  apply bpow_lt in Hlt. lra.
Qed.

Lemma bpow_lt_inv a b : (bpow a < bpow b)%R -> a < b.
Proof.
  intros H. destruct (Z_lt_le_dec a b) as [|Hle]; [assumption|].
  apply bpow_le in Hle. lra.
Qed.

Lemma bpow_0 : bpow 0 = 1%R.
Proof. reflexivity. Qed.

(** Magnitude of a positive integer significand. *)
Lemma IZR_digits_bounds m :
  0 < m -> (bpow (Zdigits2 m - 1) <= IZR m < bpow (Zdigits2 m))%R.
Proof.
  intros Hm. pose proof (Zdigits2_bounds m Hm) as [Hlo Hhi].
  assert (0 < Zdigits2 m) by (destruct m; cbn in *; lia).
  rewrite !bpow_IZR by lia. split; [apply IZR_le | apply IZR_lt]; assumption.
Qed.

Lemma value_bounds m e :
  0 < m ->
  (bpow (Zdigits2 m - 1 + e) <= IZR m * bpow e < bpow (Zdigits2 m + e))%R.
Proof.
  intros Hm. rewrite !bpow_add. pose proof (IZR_digits_bounds m Hm).
  pose proof (bpow_pos e). split; nra.
Qed.

Lemma digits_le_of_value_le m e k :
  0 < m -> (IZR m * bpow e <= bpow k)%R -> Zdigits2 m + e <= k + 1.
Proof.
  intros Hm H. pose proof (value_bounds m e Hm) as [Hlo _].
  assert (Hk : Zdigits2 m - 1 + e <= k) by (apply bpow_le_inv; lra). lia.
Qed.

Lemma floor_shift_le m k e :
  0 <= m -> 0 <= k -> (IZR (m / 2 ^ k) * bpow (e + k) <= IZR m * bpow e)%R.
Proof.
  intros Hm Hk. rewrite bpow_add, (bpow_IZR k) by lia.
  assert (Hp : 0 < 2 ^ k) by (apply Z.pow_pos_nonneg; lia).
  pose proof (Z.mul_div_le m (2 ^ k) Hp) as H.
  apply IZR_le in H. rewrite mult_IZR in H. pose proof (bpow_pos e). nra.
Qed.

(** Rounding a value that is at most one gives at most one. *)
Lemma binary_round_aux_le_one s m e l v :
  0 <= m -> locates v (shr_record_of_loc m l) e -> (v <= 1)%R -> e <= 0 ->
  match binary_round_aux prec emax s m e l with
  | S754_zero _ => True
  | S754_finite _ m3 e3 => (IZR (Z.pos m3) * bpow e3 <= 1)%R
  | _ => False
  end.
Proof.
  intros Hm Hloc Hv He.
  destruct (shr_fexp_spec v m e l Hm Hloc)
    as (mrs1 & e1 & Hs1 & Hloc1 & He1 & Hm1 & _).
  unfold binary_round_aux. rewrite Hs1.
  destruct Hloc1 as (Hm1nn & [Hlo Hhi] & Hin & _).
  assert (He1' : e1 <= 0).
  { subst e1. apply Z.max_lub; [exact He|].
    destruct (Z.eq_dec m 0) as [->|Hne].
    - cbn [Zdigits2]. unfold fexp64. lia.
    - destruct Hloc as (_ & [Hlo0 _] & _). rewrite shr_record_of_loc_m in Hlo0.
      pose proof (digits_le_of_value_le m e 0 ltac:(lia)) as Hd.
      rewrite bpow_0 in Hd. specialize (Hd ltac:(lra)). unfold fexp64. lia. }
  pose proof (round_nearest_even_cases mrs1) as Hr. cbn zeta in Hr.
  set (m2 := round_nearest_even (shr_m mrs1) (loc_of_shr_record mrs1)) in *.
  assert (Hm2nn : 0 <= m2) by (destruct Hr as [-> | [-> _]]; lia).
  assert (Hm2 : (IZR m2 * bpow e1 <= 1)%R).
  { destruct Hr as [-> | [-> Hi]]; [lra|].
    specialize (Hin Hi). pose proof (bpow_pos e1) as Hb.
    assert (Hone : (bpow (- e1) * bpow e1 = 1)%R)
      by (rewrite <- bpow_add; replace (- e1 + e1) with 0 by lia; reflexivity).
    rewrite (bpow_IZR (- e1)) in Hone by lia.
    assert (Hlt : (IZR (shr_m mrs1) < IZR (2 ^ (- e1)))%R) by nra.
    apply lt_IZR in Hlt.
    assert (Hle : shr_m mrs1 + 1 <= 2 ^ (- e1)) by lia.
    apply IZR_le in Hle. nra. }
  assert (Hloc2 : locates (IZR m2 * bpow e1) (shr_record_of_loc m2 loc_Exact) e1).
  { cbn. unfold locates, rec_inexact. cbn. pose proof (bpow_pos e1).
    rewrite plus_IZR. repeat split; try assumption; try lra; discriminate. }
  destruct (shr_fexp_spec _ m2 e1 loc_Exact Hm2nn Hloc2)
    as (mrs2 & e2 & Hs2 & Hloc2' & He2 & Hm3 & _).
  rewrite Hs2.
  assert (Hm3nn : 0 <= shr_m mrs2) by (destruct Hloc2' as (H & _); exact H).
  destruct (shr_m mrs2) as [|m3|m3] eqn:Hm3e; [exact I | | lia].
  assert (Hm2pos : 0 < m2).
  { destruct (Z.eq_dec m2 0) as [Hz|]; [|lia].
    rewrite Hz, Z.div_0_l in Hm3; [discriminate|].
    pose proof (Z.pow_pos_nonneg 2 (e2 - e1)). lia. }
  assert (He2' : e2 <= 0).
  { subst e2. apply Z.max_lub; [exact He1'|].
    pose proof (digits_le_of_value_le m2 e1 0 Hm2pos) as Hd.
    rewrite bpow_0 in Hd. specialize (Hd Hm2). unfold fexp64. lia. }
  replace (Z.leb e2 (emax - prec)) with true
    by (symmetry; apply Z.leb_le; change (emax - prec) with 971; lia).
  rewrite Hm3. replace e2 with (e1 + (e2 - e1)) at 2 by lia.
  pose proof (floor_shift_le m2 (e2 - e1) e1 Hm2nn ltac:(lia)). lra.
Qed.

Lemma new_location_inexact q nb k :
  rec_inexact (shr_record_of_loc q (new_location nb k)) = negb (k =? 0).
Proof.
  unfold new_location, new_location_even, new_location_odd.
  destruct (Z.even nb), (k =? 0); try reflexivity;
    match goal with
    | |- context [loc_Inexact ?c] => destruct c; reflexivity
    end.
Qed.

Lemma locates_of_loc v q e l :
  0 <= q ->
  (IZR q * bpow e <= v < IZR (q + 1) * bpow e)%R ->
  (rec_inexact (shr_record_of_loc q l) = true -> (IZR q * bpow e < v)%R) ->
  (rec_inexact (shr_record_of_loc q l) = false -> v = (IZR q * bpow e)%R) ->
  locates v (shr_record_of_loc q l) e.
Proof.
  intros Hq Hv Hi He. unfold locates. rewrite shr_record_of_loc_m. auto.
Qed.

(** The quotient and its location, as the division core computes them. *)
Lemma SFdiv_core_binary_spec mx ex my ey :
  exists q e' l,
    SFdiv_core_binary prec emax (Z.pos mx) ex (Z.pos my) ey = (q, e', l) /\
    0 <= q /\
    locates (IZR (Z.pos mx) * bpow ex / (IZR (Z.pos my) * bpow ey))
            (shr_record_of_loc q l) e' /\
    e' <= fexp64 (Zdigits2 (Z.pos mx) + ex - (Zdigits2 (Z.pos my) + ey)).
Proof.
  unfold SFdiv_core_binary. rewrite fexp_64.
  set (d := fexp64 (Zdigits2 (Z.pos mx) + ex - (Zdigits2 (Z.pos my) + ey))).
  set (e' := Z.min d (ex - ey)).
  set (s := ex - ey - e').
  assert (Hs : 0 <= s) by (unfold s, e'; lia).
  set (m' := match s with
             | 0 => Z.pos mx
             | Z.pos _ => Z.shiftl (Z.pos mx) s
             | Z.neg _ => 0
             end).
  assert (Hm' : m' = Z.pos mx * 2 ^ s).
  { unfold m'. destruct s as [|p|p] eqn:Es; try lia.
    apply Z.shiftl_mul_pow2. lia. }
  pose proof (Z_div_mod m' (Z.pos my) ltac:(lia)) as Hdiv.
  destruct (Z.div_eucl m' (Z.pos my)) as [q r]. destruct Hdiv as [Heq Hr].
  exists q, e', (new_location (Z.pos my) r).
  assert (Hp : 0 < 2 ^ s) by (apply Z.pow_pos_nonneg; lia).
  assert (Hq : 0 <= q) by nia.
  split; [reflexivity|]. split; [exact Hq|]. split; [|unfold e'; lia].
  set (v := (IZR (Z.pos mx) * bpow ex / (IZR (Z.pos my) * bpow ey))%R).
  pose proof (bpow_pos ey) as HY. pose proof (bpow_pos e') as HE.
  assert (HM : (0 < IZR (Z.pos my))%R) by (apply IZR_lt; lia).
  assert (Hv : (v * IZR (Z.pos my) = (IZR (Z.pos my) * IZR q + IZR r) * bpow e')%R).
  { rewrite <- mult_IZR, <- plus_IZR, <- Heq, Hm', mult_IZR, <- (bpow_IZR s) by lia.
    unfold v. replace ex with (s + (e' + ey)) by (unfold s; lia).
    rewrite !bpow_add. field. lra. }
  assert (Hr0 : (0 <= IZR r)%R) by (apply IZR_le; lia).
  assert (Hr1 : (IZR r < IZR (Z.pos my))%R) by (apply IZR_lt; lia).
  apply locates_of_loc; try assumption; rewrite ?new_location_inexact.
  - rewrite plus_IZR. split; nra.
  - intros Hne. apply negb_true_iff, Z.eqb_neq in Hne.
    assert (0 < r) by lia. assert (0 < IZR r)%R by (apply IZR_lt; lia). nra.
  - intros Hz. apply negb_false_iff, Z.eqb_eq in Hz. subst r. nra.
Qed.

Lemma Rdiv_le_one a b : (0 < b)%R -> (a <= b)%R -> (a / b <= 1)%R.
Proof.
  intros Hb Hab. apply (Rmult_le_reg_r b); [exact Hb|].
  unfold Rdiv. rewrite Rmult_assoc, Rinv_l by lra. lra.
Qed.

(** A quotient of positive doubles with numerator below the denominator is a
    zero or a finite double of value at most one. *)
Lemma SFdiv_le_one sx mx ex sy my ey :
  (IZR (Z.pos mx) * bpow ex <= IZR (Z.pos my) * bpow ey)%R ->
  match SF64div (S754_finite sx mx ex) (S754_finite sy my ey) with
  | S754_zero _ => True
  | S754_finite _ m e => (IZR (Z.pos m) * bpow e <= 1)%R
  | _ => False
  end.
Proof.
  intros Hle. unfold SF64div, SFdiv.
  destruct (SFdiv_core_binary_spec mx ex my ey) as (q & e' & l & Hc & Hq & Hloc & He').
  rewrite Hc.
  pose proof (value_bounds (Z.pos mx) ex ltac:(lia)) as [Hx _].
  pose proof (value_bounds (Z.pos my) ey ltac:(lia)) as [Hy0 Hy].
  apply (binary_round_aux_le_one _ q e' l _ Hq Hloc).
  - apply Rdiv_le_one; [|exact Hle]. pose proof (bpow_pos (Zdigits2 (Z.pos my) - 1 + ey)). lra.
  - assert (Zdigits2 (Z.pos mx) - 1 + ex < Zdigits2 (Z.pos my) + ey)
      by (apply bpow_lt_inv; lra).
    unfold fexp64 in He'. lia.
Qed.

Lemma Zdigits2_succ_cases m :
  0 <= m ->
  Zdigits2 (m + 1) = Zdigits2 m \/
  (Zdigits2 (m + 1) = Zdigits2 m + 1 /\ m + 1 = 2 ^ Zdigits2 m).
Proof.
  intros Hm. destruct (Z.eq_dec m 0) as [->|Hne]; [right; split; reflexivity|].
  pose proof (Zdigits2_bounds m ltac:(lia)) as [Hlo Hhi].
  pose proof (Zdigits2_nonneg m).
  destruct (Z_lt_le_dec (m + 1) (2 ^ Zdigits2 m)) as [Hlt|Hge].
  - left. apply Zdigits2_unique; lia.
  - right. assert (He : m + 1 = 2 ^ Zdigits2 m) by lia. split; [|exact He].
    apply Zdigits2_unique; [|lia]. rewrite He.
    replace (Zdigits2 m + 1 - 1) with (Zdigits2 m) by lia.
    split; [lia|]. rewrite Z.pow_add_r by lia. lia.
Qed.

Lemma canonical_digits mt et :
  SpecFloat.bounded prec emax mt et = true ->
  fexp64 (Zdigits2 (Z.pos mt) + et) = et /\ et <= 971.
Proof.
  unfold SpecFloat.bounded, canonical_mantissa. rewrite fexp_64. intros H.
  apply andb_true_iff in H. destruct H as [H1 H2].
  apply Z.eqb_eq in H1. apply Z.leb_le in H2. split; [exact H1 | exact H2].
Qed.

(** The second truncation of the rounding only renormalizes. *)
Lemma renormalize_exact m1 e1 m2 :
  0 <= m1 -> fexp64 (Zdigits2 m1 + e1) <= e1 ->
  m2 = m1 \/ m2 = m1 + 1 ->
  let e2 := Z.max e1 (fexp64 (Zdigits2 m2 + e1)) in
  (IZR (m2 / 2 ^ (e2 - e1)) * bpow e2 = IZR m2 * bpow e1)%R.
Proof.
  intros Hm1 HP1 Hm2 e2.
  assert (Hcase : e2 = e1 \/ (e2 = e1 + 1 /\ exists k, 0 <= k /\ m2 = 2 * 2 ^ k)).
  { destruct Hm2 as [-> | ->]; [left; unfold e2; lia|].
    destruct (Zdigits2_succ_cases m1 Hm1) as [Hd | [Hd Hpow]].
    - left. unfold e2. rewrite Hd. lia.
    - pose proof (Zdigits2_nonneg m1) as Hnn.
      destruct (Z.eq_dec (Zdigits2 m1) 0) as [Hz|Hnz].
      + left. unfold e2. rewrite Hd, Hz in *. unfold fexp64 in *. lia.
      + destruct (Z_le_gt_dec (fexp64 (Zdigits2 (m1 + 1) + e1)) e1) as [Hle|Hgt].
        * left. unfold e2. lia.
        * right. split; [unfold e2; rewrite Hd in *; unfold fexp64 in *; lia|].
          exists (Zdigits2 m1 - 1). split; [lia|]. rewrite Hpow.
          rewrite <- Z.pow_succ_r by lia. f_equal. lia. }
  destruct Hcase as [-> | [-> (k & Hk & ->)]].
  - rewrite Z.sub_diag, Z.div_1_r. reflexivity.
  - replace (e1 + 1 - e1) with 1 by lia. rewrite bpow_succ.
    change (2 ^ 1) with 2. rewrite Z.mul_comm, Z.div_mul by lia.
    rewrite mult_IZR. lra.
Qed.

(** Rounding an exactly given value never goes below a double that is at
    most that value. *)
Lemma binary_round_aux_ge_exact s m e mt et :
  0 < m -> SpecFloat.bounded prec emax mt et = true ->
  (IZR (Z.pos mt) * bpow et <= IZR m * bpow e)%R ->
  match binary_round_aux prec emax s m e loc_Exact with
  | S754_infinity _ => True
  | S754_finite _ m3 e3 =>
      (IZR (Z.pos mt) * bpow et <= IZR (Z.pos m3) * bpow e3)%R
  | _ => False
  end.
Proof.
  intros Hm Hb HB. destruct (canonical_digits mt et Hb) as [Hcan _].
  set (v := (IZR m * bpow e)%R) in *.
  assert (Hloc : locates v (shr_record_of_loc m loc_Exact) e).
  { unfold locates, rec_inexact. cbn. pose proof (bpow_pos e).
    rewrite plus_IZR. unfold v. repeat split; try lia; try lra; discriminate. }
  destruct (shr_fexp_spec v m e loc_Exact ltac:(lia) Hloc)
    as (mrs1 & e1 & Hs1 & Hloc1 & He1 & Hm1 & HP1).
  unfold binary_round_aux. rewrite Hs1.
  destruct Hloc1 as (Hm1nn & [Hlo Hhi] & _ & _).
  pose proof (bpow_pos e1) as Hb1. pose proof (bpow_pos et) as Hbt.
  assert (HBpos : (0 < IZR (Z.pos mt) * bpow et)%R).
  { assert (0 < IZR (Z.pos mt))%R by (apply IZR_lt; lia). nra. }
  assert (HF : (IZR (Z.pos mt) * bpow et <= IZR (shr_m mrs1) * bpow e1)%R).
  { destruct (Z_le_gt_dec (fexp64 (Zdigits2 m + e)) e) as [Hns|Hsh].
    - assert (Hee : e1 = e) by lia.
      rewrite Hm1. replace (e1 - e) with 0 by lia. rewrite Z.div_1_r, Hee.
      exact HB.
    - assert (He1' : e1 = fexp64 (Zdigits2 m + e)) by lia.
      destruct (Z_le_gt_dec e1 et) as [Hge|Hlt].
      + assert (HK : (IZR (Z.pos mt * 2 ^ (et - e1)) * bpow e1
                      = IZR (Z.pos mt) * bpow et)%R).
        { rewrite mult_IZR, <- bpow_IZR by lia.
          replace et with (et - e1 + e1) at 2 by lia. rewrite bpow_add. ring. }
        assert (Hlt : (IZR (Z.pos mt * 2 ^ (et - e1)) < IZR (shr_m mrs1 + 1))%R)
          by nra.
        apply lt_IZR in Hlt.
        assert (Hle : Z.pos mt * 2 ^ (et - e1) <= shr_m mrs1) by lia.
        apply IZR_le in Hle. nra.
      + pose proof (fexp64_ge (Zdigits2 (Z.pos mt) + et)) as Hemin.
        assert (He1n : e1 = Zdigits2 m + e - 53) by (unfold fexp64 in *; lia).
        assert (Hd1 : Zdigits2 (shr_m mrs1) = 53).
        { rewrite Hm1, Zdigits2_div_pow2 by lia. lia. }
        assert (Hm1pos : 0 < shr_m mrs1).
        { destruct (shr_m mrs1); cbn in Hd1; lia. }
        pose proof (value_bounds (shr_m mrs1) e1 Hm1pos) as [Hv1 _].
        rewrite Hd1 in Hv1.
        pose proof (value_bounds (Z.pos mt) et ltac:(lia)) as [_ Hvt].
        assert (Hdt : Zdigits2 (Z.pos mt) + et <= 53 - 1 + e1)
          by (unfold fexp64 in Hcan; lia).
        apply bpow_le in Hdt. lra. }
  pose proof (round_nearest_even_cases mrs1) as Hr. cbn zeta in Hr.
  set (m2 := round_nearest_even (shr_m mrs1) (loc_of_shr_record mrs1)) in *.
  assert (Hm2 : m2 = shr_m mrs1 \/ m2 = shr_m mrs1 + 1) by tauto.
  assert (Hm2nn : 0 <= m2) by lia.
  assert (HF2 : (IZR (Z.pos mt) * bpow et <= IZR m2 * bpow e1)%R).
  { destruct Hm2 as [-> | ->]; [exact HF|]. rewrite plus_IZR. lra. }
  assert (Hloc2 : locates (IZR m2 * bpow e1) (shr_record_of_loc m2 loc_Exact) e1).
  { unfold locates, rec_inexact. cbn.
    rewrite plus_IZR. repeat split; try assumption; try lra; discriminate. }
  destruct (shr_fexp_spec _ m2 e1 loc_Exact Hm2nn Hloc2)
    as (mrs2 & e2 & Hs2 & _ & He2 & Hm3 & _).
  rewrite Hs2.
  pose proof (renormalize_exact (shr_m mrs1) e1 m2 Hm1nn HP1 Hm2) as Hex.
  cbn zeta in Hex. rewrite <- He2, <- Hm3 in Hex.
  destruct (shr_m mrs2) as [|m3|m3] eqn:Hm3e.
  - rewrite Rmult_0_l in Hex. lra.
  - destruct (Z.leb e2 (emax - prec)); [lra | exact I].
  - assert (Hneg : (IZR (Z.neg m3) < 0)%R) by (apply IZR_lt; lia).
    pose proof (bpow_pos e2). nra.
Qed.

Lemma iter_xO_value mx d : Z.pos (Pos.iter xO mx d) = Z.pos mx * 2 ^ Z.pos d.
Proof.
  induction d as [|d IH] using Pos.peano_ind.
  - cbn. lia.
  - rewrite Pos.iter_succ, Pos2Z.inj_xO, IH, Pos2Z.inj_succ, Z.pow_succ_r by lia.
    lia.
Qed.

(** Aligning a significand to a lower exponent keeps the value. *)
Lemma shl_align_value mx ex ex' :
  let '(m', e') := shl_align mx ex ex' in
  (IZR (Z.pos m') * bpow e' = IZR (Z.pos mx) * bpow ex)%R /\
  (ex' <= ex -> e' = ex').
Proof.
  unfold shl_align. destruct (ex' - ex) as [|d|d] eqn:Hd.
  - split; [reflexivity | lia].
  - split; [reflexivity | lia].
  - split; [|reflexivity].
    rewrite iter_xO_value, mult_IZR, <- bpow_IZR by lia.
    replace ex with (Z.pos d + ex') by lia. rewrite bpow_add. ring.
Qed.

Lemma shl_align_fst mx ex ez :
  ez <= ex ->
  (IZR (Z.pos (fst (shl_align mx ex ez))) * bpow ez = IZR (Z.pos mx) * bpow ex)%R.
Proof.
  intros H. pose proof (shl_align_value mx ex ez) as Hv.
  destruct (shl_align mx ex ez) as [m' e']. destruct Hv as [Hv He].
  rewrite <- (He H). exact Hv.
Qed.

(** The sum of one and a positive double is an infinity or a finite double
    that is not below the summand. *)
Lemma SFadd_one_ge mt et :
  SpecFloat.bounded prec emax mt et = true ->
  match SF64add (S754_finite false 4503599627370496 (-52)) (S754_finite false mt et) with
  | S754_infinity _ => True
  | S754_finite _ m e => (IZR (Z.pos mt) * bpow et <= IZR (Z.pos m) * bpow e)%R
  | _ => False
  end.
Proof.
  intros Hb. unfold SF64add, SFadd. cbn [cond_Zopp].
  set (ez := Z.min (-52) et).
  pose proof (shl_align_fst 4503599627370496 (-52) ez ltac:(unfold ez; lia)) as H1.
  pose proof (shl_align_fst mt et ez ltac:(unfold ez; lia)) as Ht.
  set (a := fst (shl_align 4503599627370496 (-52) ez)) in *.
  set (b := fst (shl_align mt et ez)) in *.
  change (Z.pos a + Z.pos b) with (Z.pos (a + b)).
  cbn [binary_normalize]. unfold binary_round.
  pose proof (shl_align_value (a + b) ez
                (fexp prec emax (Z.pos (digits2_pos (a + b)) + ez))) as Hv.
  destruct (shl_align (a + b) ez _) as [mz ez']. destruct Hv as [Hv _].
  apply binary_round_aux_ge_exact; [lia | exact Hb |].
  rewrite Hv, Pos2Z.inj_add, plus_IZR, Rmult_plus_distr_r, H1, Ht.
  assert (0 <= IZR 4503599627370496 * bpow (-52))%R.
  { pose proof (bpow_pos (-52)). assert (0 < IZR 4503599627370496)%R by (apply IZR_lt; lia).
    nra. }
  lra.
Qed.

(** The saturation of a positive finite double is a zero or a finite double
    of value at most one. *)
Lemma SFsaturate_le_one mt et :
  SpecFloat.bounded prec emax mt et = true ->
  match SF64div (S754_finite false mt et)
          (SF64add (S754_finite false 4503599627370496 (-52))
                   (S754_finite false mt et)) with
  | S754_zero _ => True
  | S754_finite _ m e => (IZR (Z.pos m) * bpow e <= 1)%R
  | _ => False
  end.
Proof.
  intros Hb. pose proof (SFadd_one_ge mt et Hb) as Hy.
  destruct (SF64add _ _) as [sy|sy| |sy my ey]; try contradiction.
  - exact I.
  - apply SFdiv_le_one, Hy.
Qed.

(** A valid finite double of value at most one compares below one. *)
Lemma SFleb_one_of_value s m e :
  SpecFloat.bounded prec emax m e = true ->
  (IZR (Z.pos m) * bpow e <= 1)%R ->
  SFleb (S754_finite s m e) (S754_finite false 4503599627370496 (-52)) = true.
Proof.
  intros Hb Hv. destruct (canonical_digits m e Hb) as [Hcan _].
  destruct s; [reflexivity|].
  pose proof (digits_le_of_value_le (Z.pos m) e 0 ltac:(lia)) as Hd.
  rewrite bpow_0 in Hd. specialize (Hd Hv).
  assert (He : e <= -52) by (unfold fexp64 in Hcan; lia).
  unfold SFleb, SFcompare.
  destruct (Z.compare_spec e (-52)) as [Heq|Hlt|Hgt]; [|reflexivity|lia].
  subst e. assert (Hm : Z.pos m <= 2 ^ 52).
  { apply le_IZR. rewrite <- (bpow_IZR 52) by lia.
    assert (Hone : (bpow 52 * bpow (-52) = 1)%R)
      by (rewrite <- bpow_add; reflexivity).
    pose proof (bpow_pos (-52)). nra. }
  rewrite Pos.compare_cont_spec. cbn [Pos.switch_Eq].
  change (2 ^ 52) with (Z.pos 4503599627370496) in Hm.
  destruct (m ?= 4503599627370496)%positive eqn:Hc; try reflexivity.
  apply Pos.compare_gt_iff in Hc. lia.
Qed.

End Rounding.

(** * [bind_fields] *)

Section BindFacts.

Variables (Tag Handle : Type).

Implicit Types (e : AggregationEfficiency Tag Handle).
Implicit Types (volfm : FieldManager Tag Handle).

(** The field manager resolves each tag of [tags] to the handle at the same
    position of [hs]. *)
Lemma push_abscissae_returned volfm tags : forall e e',
  push_abscissae volfm tags e = Returned e' ->
  exists hs, abscissae_ e' = abscissae_ e ++ hs /\
             Forall2 (fun t h => volfm t = Some h) tags hs /\
             abscissaeTagList_ e' = abscissaeTagList_ e /\
             growthCoefTag_ e' = growthCoefTag_ e /\
             dissipationTag_ e' = dissipationTag_ e /\
             densityTag_ e' = densityTag_ e.
Proof.
  induction tags as [|t tags IH]; intros e e' H; cbn in H.
  - injection H as <-. exists []. rewrite app_nil_r. repeat split. constructor.
  - destruct (volfm t) as [h|] eqn:Ht; try discriminate.
    destruct (IH _ _ H) as (hs & Ha & Hf & Hrest). cbn in Ha, Hrest.
    exists (h :: hs). rewrite Ha, <- app_assoc. split; [reflexivity|].
    split; [constructor; assumption | exact Hrest].
Qed.

Lemma push_abscissae_tags volfm tags : forall e,
  abscissaeTagList_ (object_after (push_abscissae volfm tags e)) =
  abscissaeTagList_ e.
Proof.
  induction tags as [|t tags IH]; intros e; cbn; [reflexivity|].
  destruct (volfm t) as [h|]; [|reflexivity]. rewrite IH. reflexivity.
Qed.

Lemma bind_fields_tags volfm e :
  abscissaeTagList_ (object_after (bind_fields volfm e)) = abscissaeTagList_ e.
Proof.
  unfold bind_fields.
  pose proof (push_abscissae_tags volfm (abscissaeTagList_ (set_abscissae e []))
                (set_abscissae e [])) as H.
  destruct (push_abscissae _ _ _) as [e1|e1]; cbn in H |- *; [|exact H].
  destruct (volfm (growthCoefTag_ e1)); cbn; [|exact H].
  destruct (volfm (dissipationTag_ e1)); cbn; [|exact H].
  destruct (volfm (densityTag_ e1)); cbn; exact H.
Qed.

Lemma bind_fields_calls_tags volfms : forall e,
  abscissaeTagList_ (bind_fields_calls volfms e) = abscissaeTagList_ e.
Proof.
  unfold bind_fields_calls.
  induction volfms as [|volfm volfms IH]; intros e; cbn; [reflexivity|].
  rewrite IH. apply bind_fields_tags.
Qed.

(** A returning [bind_fields] leaves one handle per tag, in tag order, and
    the three scalar pointers set, whatever the object held before. *)
Lemma bind_fields_returned volfm e e' :
  bind_fields volfm e = Returned e' ->
  Forall2 (fun t h => volfm t = Some h) (abscissaeTagList_ e) (abscissae_ e') /\
  abscissaeTagList_ e' = abscissaeTagList_ e /\
  bound e'.
Proof.
  unfold bind_fields. intros H.
  destruct (push_abscissae _ _ _) as [e1|e1] eqn:Hp; try discriminate.
  apply push_abscissae_returned in Hp.
  destruct Hp as (hs & Ha & Hf & Ht & _). cbn in Ha, Hf, Ht.
  destruct (volfm (growthCoefTag_ e1)); try discriminate.
  cbn in H. destruct (volfm (dissipationTag_ e1)); try discriminate.
  cbn in H. destruct (volfm (densityTag_ e1)); try discriminate.
  injection H as <-. cbn. rewrite Ha. repeat split; try assumption; discriminate.
Qed.

End BindFacts.

(** * The range of the saturation *)

Section Range.

Lemma Prim2SF_infinity : Prim2SF infinity = S754_infinity false.
Proof. reflexivity. Qed.

Lemma saturate_infinity : saturate infinity = nan.
Proof. reflexivity. Qed.

(** The saturation of a positive finite double lies in [0, 1]. *)
Lemma saturate_range t :
  gtb t 0 = true -> t <> infinity -> in_closed_unit_interval (saturate t) = true.
Proof.
  intros Hpos Hfin. rewrite gtb_zero in Hpos.
  pose proof (Prim2SF_valid t) as Hvt.
  pose proof (Prim2SF_valid (saturate t)) as Hvr.
  pose proof (SFsaturate_sign _ Hpos) as Hsign.
  unfold in_closed_unit_interval. rewrite zero_leb, leb_spec, Prim2SF_one.
  unfold saturate in *. rewrite div_spec, add_spec, Prim2SF_one in *.
  destruct (Prim2SF t) as [s|s| |s mt et] eqn:Ht; try discriminate;
    destruct s; try discriminate.
  - exfalso. apply Hfin. apply Prim2SF_inj. rewrite Ht. reflexivity.
  - cbn [valid_binary] in Hvt. pose proof (SFsaturate_le_one mt et Hvt) as Hle.
    destruct (SF64div _ _) as [sr|sr| |sr mr er]; try contradiction.
    + cbn in Hsign. subst sr. reflexivity.
    + cbn in Hsign. subst sr. cbn [valid_binary] in Hvr.
      rewrite (SFleb_one_of_value false mr er Hvr Hle). reflexivity.
Qed.

(** The value written: NaN for an infinite candidate, in [0, 1] otherwise. *)
Lemma saturate_clamp_range x :
  (clamp x = infinity /\ saturate (clamp x) = nan) \/
  (clamp x <> infinity /\ in_closed_unit_interval (saturate (clamp x)) = true).
Proof.
  destruct (gtb x 0) eqn:Hx.
  - rewrite clamp_positive by exact Hx.
    destruct (Prim2SF x) as [s|[|]| |s mt et] eqn:Hp.
    + right. split; [intros ->; discriminate|].
      apply saturate_range; [exact Hx | intros ->; discriminate].
    + rewrite gtb_zero, Hp in Hx. discriminate.
    + left. assert (x = infinity) by (apply Prim2SF_inj; rewrite Hp; reflexivity).
      subst x. split; reflexivity.
    + right. split; [intros ->; discriminate|].
      apply saturate_range; [exact Hx | intros ->; discriminate].
    + right. split; [intros ->; discriminate|].
      apply saturate_range; [exact Hx | intros ->; discriminate].
  - rewrite clamp_not_positive by exact Hx. right.
    split; [intros H; apply (f_equal is_infinity) in H; discriminate | reflexivity].
Qed.

End Range.

(** * The properties of [evaluate] and [bind_fields] *)



Section Claims.

Variables (Point Tag Handle : Type).

Implicit Types (e : AggregationEfficiency Tag Handle) (mem : Memory Point Handle).
Implicit Types (res : list (Field Point)) (f : Field Point) (p : Point).

(** What [evaluate] wrote for the pair [(i, j)], for a branch that ran. *)
Lemma evaluate_written e mem res res' i j f :
  recognized (growthModel_ e) ->
  evaluate e mem res = Some res' ->
  i < List.length (abscissae_ e) -> j < List.length (abscissae_ e) ->
  nth_error res' (i * List.length (abscissae_ e) + j) = Some f ->
  exists cand, select_candidate (growthModel_ e) = Some cand /\
               written_field e mem cand i j = Some f.
Proof.
  intros Hrec Hev Hi Hj Hn.
  apply select_candidate_recognized in Hrec.
  destruct (select_candidate (growthModel_ e)) as [cand|] eqn:Hsel;
    [|contradiction].
  destruct (evaluate_inv _ _ _ _ _ _ _ _ Hsel Hev) as (_ & _ & Hw).
  destruct (Hw i j Hi Hj) as (f' & Hf' & Hn').
  exists cand. split; [reflexivity | congruence].
Qed.

(** C3: for every growth model with a branch and every pair [(i, j)], at a
    point where the density is [<= 0] or the dissipation is [<= 0] the
    efficiency written by [evaluate] is exactly [0]. *)
Theorem nonpositive_density_or_dissipation_gives_zero
    e mem res res' i j f hr he p :
  recognized (growthModel_ e) ->
  evaluate e mem res = Some res' ->
  i < List.length (abscissae_ e) -> j < List.length (abscissae_ e) ->
  nth_error res' (i * List.length (abscissae_ e) + j) = Some f ->
  rho_ e = Some hr -> eps_ e = Some he ->
  (mem hr p <=? 0)%float = true \/ (mem he p <=? 0)%float = true ->
  f p = 0%float.
Proof.
  intros Hrec Hev Hi Hj Hn Hr He Hle.
  destruct (evaluate_written _ _ _ _ _ _ _ Hrec Hev Hi Hj Hn) as (cand & Hsel & Hw).
  destruct (written_field_value _ _ _ _ _ _ _ _ _ Hw)
    as (hi & hj & hg & hr' & he' & _ & _ & _ & Hr' & He' & Hf).
  rewrite Hf. assert (hr' = hr) by congruence. assert (he' = he) by congruence.
  subst. apply efficiency_not_positive_candidate.
  rewrite (candidate_unguarded _ _ _ _ _ _ _ _ Hsel)
    by (apply guard_false_of_nonpositive, Hle).
  reflexivity.
Qed.

(** C8: for every growth model with a branch and every pair [(i, j)], at a
    point where the density and the dissipation are positive but the raw
    candidate is negative, the clamp maps it to [0] and the efficiency
    written is exactly [0]. *)
Theorem negative_candidate_gives_zero
    e mem res res' i j f cand hi hj hg hr he p :
  select_candidate (growthModel_ e) = Some cand ->
  evaluate e mem res = Some res' ->
  nth_error (abscissae_ e) i = Some hi -> nth_error (abscissae_ e) j = Some hj ->
  nth_error res' (i * List.length (abscissae_ e) + j) = Some f ->
  g0_ e = Some hg -> rho_ e = Some hr -> eps_ e = Some he ->
  guard (mem hr p) (mem he p) = true ->
  (cand (l_ e) (mem hg p) (mem hr p) (mem he p) (mem hi p) (mem hj p) <? 0)%float
    = true ->
  clamp (cand (l_ e) (mem hg p) (mem hr p) (mem he p) (mem hi p) (mem hj p))
    = 0%float /\
  f p = 0%float.
Proof.
  intros Hsel Hev Hi Hj Hn Hg Hr He _ Hneg.
  assert (Hi' : i < List.length (abscissae_ e))
    by (apply nth_error_Some; congruence).
  assert (Hj' : j < List.length (abscissae_ e))
    by (apply nth_error_Some; congruence).
  destruct (evaluate_inv _ _ _ _ _ _ _ _ Hsel Hev) as (_ & _ & Hw).
  destruct (Hw i j Hi' Hj') as (f' & Hf' & Hn').
  assert (f' = f) by congruence. subst f'.
  destruct (written_field_value _ _ _ _ _ _ _ _ _ Hf')
    as (hi' & hj' & hg' & hr' & he' & Ei & Ej & Eg & Er & Ee & Hf).
  assert (hi' = hi) by congruence. assert (hj' = hj) by congruence.
  assert (hg' = hg) by congruence. assert (hr' = hr) by congruence.
  assert (he' = he) by congruence. subst.
  apply not_positive_of_negative in Hneg. split.
  - apply clamp_not_positive, Hneg.
  - rewrite Hf. apply efficiency_not_positive_candidate, Hneg.
Qed.

(** C5: when the growth-model string is none of BULK_DIFFUSION, MONOSURFACE,
    CONSTANT and KINETIC, [evaluate] runs no loop and leaves every result
    field as it was. *)
Theorem unrecognized_model_writes_nothing e mem res :
  ~ recognized (growthModel_ e) -> res <> [] ->
  evaluate e mem res = Some res.
Proof.
  intros Hrec Hne. unfold evaluate. destruct res as [|r0 res]; [contradiction|].
  destruct (select_candidate (growthModel_ e)) as [cand|] eqn:Hsel; [|reflexivity].
  exfalso. apply Hrec, select_candidate_recognized. congruence.
Qed.

(** C9: for every growth model with a branch, [evaluate] writes exactly
    [N * N] fields: the efficiency of the ordered pair [(i, j)] goes to the
    result at index [i * N + j], and the results from index [N * N] on are
    left as they were. *)
Theorem writes_row_major e mem res :
  recognized (growthModel_ e) -> bound e -> res <> [] ->
  List.length (abscissae_ e) * List.length (abscissae_ e) <= List.length res ->
  exists res' cand,
    evaluate e mem res = Some res' /\
    select_candidate (growthModel_ e) = Some cand /\
    List.length res' = List.length res /\
    (forall i j, i < List.length (abscissae_ e) -> j < List.length (abscissae_ e) ->
       exists f, written_field e mem cand i j = Some f /\
                 nth_error res' (i * List.length (abscissae_ e) + j) = Some f) /\
    (forall k, List.length (abscissae_ e) * List.length (abscissae_ e) <= k ->
       nth_error res' k = nth_error res k).
Proof.
  intros Hrec Hb Hne Hlen.
  destruct (evaluate_runs _ _ _ _ mem _ Hb Hne Hlen) as [res' Hev].
  apply select_candidate_recognized in Hrec.
  destruct (select_candidate (growthModel_ e)) as [cand|] eqn:Hsel;
    [|contradiction].
  destruct (evaluate_inv _ _ _ _ _ _ _ _ Hsel Hev) as (Hl & Ho & Hw).
  exists res', cand. repeat split; assumption.
Qed.

(** C7: for CONSTANT and KINETIC the field written for the pair [(i, j)]
    equals, at every point and for all inputs, the field written for
    [(j, i)]: the candidate depends on the radii through [ri + rj] only. *)
Theorem constant_kinetic_symmetric e mem res res' i j fij fji :
  growthModel_ e = "CONSTANT"%string \/ growthModel_ e = "KINETIC"%string ->
  evaluate e mem res = Some res' ->
  i < List.length (abscissae_ e) -> j < List.length (abscissae_ e) ->
  nth_error res' (i * List.length (abscissae_ e) + j) = Some fij ->
  nth_error res' (j * List.length (abscissae_ e) + i) = Some fji ->
  forall p, fij p = fji p.
Proof.
  intros Hm Hev Hi Hj Hij Hji p.
  assert (Hsel : select_candidate (growthModel_ e) = Some constant_candidate)
    by (destruct Hm as [-> | ->]; reflexivity).
  destruct (evaluate_inv _ _ _ _ _ _ _ _ Hsel Hev) as (_ & _ & Hw).
  destruct (Hw i j Hi Hj) as (f1 & Hf1 & Hn1).
  destruct (Hw j i Hj Hi) as (f2 & Hf2 & Hn2).
  assert (f1 = fij) by congruence. assert (f2 = fji) by congruence. subst.
  destruct (written_field_value _ _ _ _ _ _ _ _ _ Hf1)
    as (hi & hj & hg & hr & he & Ei & Ej & Eg & Er & Ee & H1).
  destruct (written_field_value _ _ _ _ _ _ _ _ _ Hf2)
    as (hj' & hi' & hg' & hr' & he' & Ej' & Ei' & Eg' & Er' & Ee' & H2).
  rewrite H1, H2.
  assert (hi' = hi) by congruence. assert (hj' = hj) by congruence.
  assert (hg' = hg) by congruence. assert (hr' = hr) by congruence.
  assert (he' = he) by congruence. subst.
  unfold efficiency. rewrite constant_candidate_sym. reflexivity.
Qed.

(** C4, as the code has it: for BULK_DIFFUSION and MONOSURFACE, where the
    density and the dissipation are positive the candidate is
    [l * growth / (r * density * (ri + rj) * (ri + rj) * dissipation)] with
    [r] the larger of the two radii ([ri] where [ri > rj], else [rj]); and
    the fields written for [(i, j)] and [(j, i)] agree at every point where
    the two radii are not [+0.0] and [-0.0]. *)
Theorem bulk_monosurface_larger_radius_symmetric
    e mem res res' i j fij fji hi hj hg hr he p :
  growthModel_ e = "BULK_DIFFUSION"%string \/
  growthModel_ e = "MONOSURFACE"%string ->
  evaluate e mem res = Some res' ->
  nth_error (abscissae_ e) i = Some hi -> nth_error (abscissae_ e) j = Some hj ->
  g0_ e = Some hg -> rho_ e = Some hr -> eps_ e = Some he ->
  nth_error res' (i * List.length (abscissae_ e) + j) = Some fij ->
  nth_error res' (j * List.length (abscissae_ e) + i) = Some fji ->
  let r := selected_radius (mem hi p) (mem hj p) in
  (guard (mem hr p) (mem he p) = true ->
   fij p = saturate (clamp (l_ e * mem hg p /
             (r * mem hr p * (mem hi p + mem hj p) * (mem hi p + mem hj p)
              * mem he p)))) /\
  (r = mem hi p \/ r = mem hj p) /\
  (is_nan (mem hi p) = false -> is_nan (mem hj p) = false ->
   (mem hi p <=? r)%float = true /\ (mem hj p <=? r)%float = true) /\
  (opposite_zeros (mem hi p) (mem hj p) = false -> fij p = fji p).
Proof.
  intros Hm Hev Ei Ej Eg Er Ee Hij Hji r.
  assert (Hi : i < List.length (abscissae_ e))
    by (apply nth_error_Some; congruence).
  assert (Hj : j < List.length (abscissae_ e))
    by (apply nth_error_Some; congruence).
  assert (Hsel : select_candidate (growthModel_ e) = Some bulk_diffusion_candidate)
    by (destruct Hm as [-> | ->]; reflexivity).
  destruct (evaluate_inv _ _ _ _ _ _ _ _ Hsel Hev) as (_ & _ & Hw).
  destruct (Hw i j Hi Hj) as (f1 & Hf1 & Hn1).
  destruct (Hw j i Hj Hi) as (f2 & Hf2 & Hn2).
  assert (f1 = fij) by congruence. assert (f2 = fji) by congruence. subst.
  destruct (written_field_value _ _ _ _ _ _ _ _ _ Hf1)
    as (hi1 & hj1 & hg1 & hr1 & he1 & Ei1 & Ej1 & Eg1 & Er1 & Ee1 & H1).
  destruct (written_field_value _ _ _ _ _ _ _ _ _ Hf2)
    as (hj2 & hi2 & hg2 & hr2 & he2 & Ej2 & Ei2 & Eg2 & Er2 & Ee2 & H2).
  assert (hi1 = hi) by congruence. assert (hj1 = hj) by congruence.
  assert (hg1 = hg) by congruence. assert (hr1 = hr) by congruence.
  assert (he1 = he) by congruence. assert (hi2 = hi) by congruence.
  assert (hj2 = hj) by congruence. assert (hg2 = hg) by congruence.
  assert (hr2 = hr) by congruence. assert (he2 = he) by congruence. subst.
  destruct (selected_radius_is_larger (mem hi p) (mem hj p)) as [Hone Hle].
  split; [|split; [exact Hone | split; [exact Hle |]]].
  - intros Hguard. rewrite H1. unfold efficiency.
    rewrite bulk_diffusion_candidate_guarded by exact Hguard. reflexivity.
  - intros Hz. rewrite H1, H2. unfold efficiency.
    rewrite (bulk_diffusion_candidate_sym _ _ _ _ _ _ Hz). reflexivity.
Qed.

End Claims.

Section ClaimsOnBinding.

Variables (Tag Handle : Type).

(** C10: [bind_fields] clears the stored abscissa handles before it pushes
    one per tag, so after any number of earlier calls a returning call
    leaves exactly one handle per abscissa tag given at construction, in
    tag order; the [N] of [evaluate], the size of that list, is the number
    of tags. *)
Theorem bind_fields_rebinds_abscissae
    (tags : list Tag) (growthCoefTag dissipationTag densityTag : Tag)
    (lengthParam : double) (growthModel : string)
    (earlier : list (FieldManager Tag Handle)) (volfm : FieldManager Tag Handle)
    (e' : AggregationEfficiency Tag Handle) :
  bind_fields volfm
    (bind_fields_calls earlier
       (construct Handle tags growthCoefTag dissipationTag densityTag
                  lengthParam growthModel)) = Returned e' ->
  Forall2 (fun t h => volfm t = Some h) tags (abscissae_ e') /\
  List.length (abscissae_ e') = List.length tags /\
  abscissaeTagList_ e' = tags.
Proof.
  intros H. apply bind_fields_returned in H. destruct H as (Hf & Ht & _).
  rewrite bind_fields_calls_tags in Hf, Ht. cbn in Hf, Ht.
  split; [exact Hf|]. split; [|exact Ht].
  symmetry. eapply Forall2_length, Hf.
Qed.

End ClaimsOnBinding.

Section ClaimsOnKernel.

(** C2: the condition guarding each candidate formula tests the density and
    the dissipation only; there are inputs that pass it with [ri + rj = 0]
    and a zero divisor; and the divisor is a nonzero number (neither a zero
    nor NaN) only if [ri + rj] is not zero and, for BULK_DIFFUSION and
    MONOSURFACE, the selected radius is not zero. *)
Theorem guard_does_not_exclude_zero_divisor :
  (forall l g0 rho eps ri rj,
     bulk_diffusion_candidate l g0 rho eps ri rj =
       (if guard rho eps
        then l * g0 / bulk_divisor (selected_radius ri rj) rho ri rj eps
        else 0)%float /\
     monosurface_candidate l g0 rho eps ri rj =
       (if guard rho eps
        then l * g0 / bulk_divisor (selected_radius ri rj) rho ri rj eps
        else 0)%float /\
     constant_candidate l g0 rho eps ri rj =
       (if guard rho eps then l * g0 / constant_divisor rho ri rj eps
        else 0)%float) /\
  (exists rho eps ri rj,
     guard rho eps = true /\ is_zero (ri + rj) = true /\
     is_zero (bulk_divisor (selected_radius ri rj) rho ri rj eps) = true /\
     is_zero (constant_divisor rho ri rj eps) = true) /\
  (forall r rho eps ri rj,
     nonzero_number (bulk_divisor r rho ri rj eps) = true ->
     is_zero (ri + rj) = false /\ is_zero r = false) /\
  (forall rho eps ri rj,
     nonzero_number (constant_divisor rho ri rj eps) = true ->
     is_zero (ri + rj) = false).
Proof.
  split; [|split; [|split]].
  - intros l g0 rho eps ri rj.
    destruct (guard rho eps) eqn:Hg.
    + rewrite monosurface_is_bulk_diffusion.
      rewrite bulk_diffusion_candidate_guarded, constant_candidate_guarded
        by exact Hg.
      repeat split.
    + unfold guard in Hg.
      unfold bulk_diffusion_candidate, monosurface_candidate,
        constant_candidate, cond.
      rewrite Hg. repeat split.
  - exists 1%float, 1%float, 0%float, 0%float. repeat split.
  - intros r rho eps ri rj H. unfold bulk_divisor in H.
    apply mul_zero_or_nan_l in H.
    pose proof (mul_zero_or_nan_r _ _ H) as Hsum.
    do 3 apply mul_zero_or_nan_l in H.
    split; apply nonzero_number_not_zero; assumption.
  - intros rho eps ri rj H. unfold constant_divisor in H.
    apply mul_zero_or_nan_l in H. apply mul_zero_or_nan_r in H.
    apply nonzero_number_not_zero; assumption.
Qed.

(** C6, as the code has it: with positive density, dissipation, length
    parameter and radii, a growth rate [g1 <= 0] gives the efficiency [0]
    exactly, and the efficiency at a larger growth rate [g2] is never below
    it.  (Between two positive growth rates the rounded efficiency may
    stay equal or even decrease.) *)
Theorem growth_above_clamped_region
    model cand (l g1 g2 rho eps ri rj : double) :
  select_candidate model = Some cand ->
  guard rho eps = true ->
  gtb l 0 = true -> gtb ri 0 = true -> gtb rj 0 = true ->
  (g1 <? g2)%float = true -> (g1 <=? 0)%float = true ->
  efficiency cand l g1 rho eps ri rj = 0%float /\
  (efficiency cand l g2 rho eps ri rj <? efficiency cand l g1 rho eps ri rj)%float
    = false.
Proof.
  intros Hsel _ Hl Hi Hj _ Hg1.
  assert (H1 : efficiency cand l g1 rho eps ri rj = 0%float).
  { apply efficiency_not_positive_candidate.
    apply (candidate_not_positive model); try assumption.
    apply not_positive_of_leb_zero, Hg1. }
  split; [exact H1|]. rewrite H1. apply saturate_clamp_not_negative.
Qed.

End ClaimsOnKernel.

Section ClaimOnRange.

Variables (Point Tag Handle : Type).

(** The value [evaluate] wrote for a pair at a point, from the inputs there. *)
Lemma evaluate_written_value
    (e : AggregationEfficiency Tag Handle) (mem : Memory Point Handle)
    (res res' : list (Field Point)) (i j : nat) (f : Field Point)
    (cand : candidate) (hi hj hg hr he : Handle) (p : Point) :
  select_candidate (growthModel_ e) = Some cand ->
  evaluate e mem res = Some res' ->
  nth_error (abscissae_ e) i = Some hi -> nth_error (abscissae_ e) j = Some hj ->
  nth_error res' (i * List.length (abscissae_ e) + j) = Some f ->
  g0_ e = Some hg -> rho_ e = Some hr -> eps_ e = Some he ->
  f p = efficiency cand (l_ e) (mem hg p) (mem hr p) (mem he p) (mem hi p) (mem hj p).
Proof.
  intros Hsel Hev Hi Hj Hn Hg Hr He.
  assert (Hi' : i < List.length (abscissae_ e))
    by (apply nth_error_Some; congruence).
  assert (Hj' : j < List.length (abscissae_ e))
    by (apply nth_error_Some; congruence).
  destruct (evaluate_inv _ _ _ _ _ _ _ _ Hsel Hev) as (_ & _ & Hw).
  destruct (Hw i j Hi' Hj') as (f' & Hf' & Hn').
  assert (f' = f) by congruence. subst f'.
  destruct (written_field_value _ _ _ _ _ _ _ _ _ Hf')
    as (hi' & hj' & hg' & hr' & he' & Ei & Ej & Eg & Er & Ee & Hf).
  rewrite Hf. congruence.
Qed.

(** C1, as the code has it: for every growth model with a branch, every
    pair [(i, j)] and every point, whatever the inputs there, the efficiency
    written by [evaluate] is NaN when the clamped candidate is [+infinity]
    and otherwise a finite value in the closed interval [0, 1]. *)
Theorem efficiency_range
    (e : AggregationEfficiency Tag Handle) (mem : Memory Point Handle)
    (res res' : list (Field Point)) (i j : nat) (f : Field Point)
    (cand : candidate) (hi hj hg hr he : Handle) (p : Point) :
  select_candidate (growthModel_ e) = Some cand ->
  evaluate e mem res = Some res' ->
  nth_error (abscissae_ e) i = Some hi -> nth_error (abscissae_ e) j = Some hj ->
  nth_error res' (i * List.length (abscissae_ e) + j) = Some f ->
  g0_ e = Some hg -> rho_ e = Some hr -> eps_ e = Some he ->
  let t := clamp (cand (l_ e) (mem hg p) (mem hr p) (mem he p)
                       (mem hi p) (mem hj p)) in
  (t = infinity /\ f p = nan) \/
  (t <> infinity /\ in_closed_unit_interval (f p) = true).
Proof.
  intros Hsel Hev Hi Hj Hn Hg Hr He t.
  rewrite (evaluate_written_value e mem res res' i j f cand hi hj hg hr he p)
    by assumption.
  apply saturate_clamp_range.
Qed.

End ClaimOnRange.

(** * Concrete runs on the one-point mesh *)

Section Runs.

Import OnePoint.

Local Open Scope string_scope.

(** C1 fails as stated: with both radii zero and positive density,
    dissipation and growth the candidate is [+infinity] and the efficiency
    written is NaN; with a very large candidate the quotient rounds to [1]. *)
Lemma efficiency_outside_unit_interval :
  (evaluate (expression 1 "KINETIC") (memory 4 1 1 0 0) outputs
     = Some (pair_fields 1 constant_candidate 4 1 1 0 0) /\
   pair_field 1 constant_candidate 4 1 1 0 0 0 0 tt = nan /\
   in_unit_interval (pair_field 1 constant_candidate 4 1 1 0 0 0 0 tt) = false) /\
  (evaluate (expression 1 "CONSTANT") (memory 0x1p60 1 1 0.5 0.5) outputs
     = Some (pair_fields 1 constant_candidate 0x1p60 1 1 0.5 0.5) /\
   pair_field 1 constant_candidate 0x1p60 1 1 0.5 0.5 0 1 tt = 1%float /\
   in_unit_interval (pair_field 1 constant_candidate 0x1p60 1 1 0.5 0.5 0 1 tt)
     = false).
Proof. repeat split. Qed.

Lemma efficiency_range_witness :
  (clamp (constant_candidate 1 2 1 1 1 1) = infinity /\
   pair_field 1 constant_candidate 2 1 1 1 1 1 1 tt = nan) \/
  (clamp (constant_candidate 1 2 1 1 1 1) <> infinity /\
   in_closed_unit_interval (pair_field 1 constant_candidate 2 1 1 1 1 1 1 tt) = true).
Proof.
  apply (efficiency_range unit nat nat (expression 1 "CONSTANT")
           (memory 2 1 1 1 1) outputs
           (pair_fields 1 constant_candidate 2 1 1 1 1) 1 1
           (pair_field 1 constant_candidate 2 1 1 1 1 1 1)
           constant_candidate 4 4 0 2 1 tt); reflexivity.
Defined.

Lemma guard_does_not_exclude_zero_divisor_witness :
  is_zero (1 + 3) = false /\ is_zero 3 = false.
Proof.
  apply (proj1 (proj2 (proj2 guard_does_not_exclude_zero_divisor)) 3 1 1 1 3)%float.
  reflexivity.
Defined.

Lemma nonpositive_density_or_dissipation_gives_zero_witness :
  pair_field 1 constant_candidate 2 5 0 1 2 0 1 tt = 0%float.
Proof.
  apply (nonpositive_density_or_dissipation_gives_zero unit nat nat
           (expression 1 "CONSTANT") (memory 2 5 0 1 2) outputs
           (pair_fields 1 constant_candidate 2 5 0 1 2) 0 1
           (pair_field 1 constant_candidate 2 5 0 1 2 0 1) 2 1 tt).
  - right; right; left; reflexivity.
  - reflexivity.
  - cbn; lia.
  - cbn; lia.
  - reflexivity.
  - reflexivity.
  - reflexivity.
  - left. reflexivity.
Defined.

(** C4 fails as stated: with the radii [+0.0] and [-0.0] the pair [(0, 1)]
    divides by [-0.0] and gets [0], the pair [(1, 0)] divides by [+0.0] and
    gets NaN. *)
Lemma bulk_diffusion_asymmetric_at_signed_zeros :
  evaluate (expression 1 "BULK_DIFFUSION") (memory 4 1 1 0 (-0)) outputs
    = Some (pair_fields 1 bulk_diffusion_candidate 4 1 1 0 (-0)) /\
  pair_field 1 bulk_diffusion_candidate 4 1 1 0 (-0) 0 1 tt = 0%float /\
  pair_field 1 bulk_diffusion_candidate 4 1 1 0 (-0) 1 0 tt = nan /\
  pair_field 1 bulk_diffusion_candidate 4 1 1 0 (-0) 0 1 tt <>
  pair_field 1 bulk_diffusion_candidate 4 1 1 0 (-0) 1 0 tt.
Proof.
  split; [reflexivity|]. split; [reflexivity|]. split; [reflexivity|].
  intros H. apply (f_equal is_nan) in H. vm_compute in H. discriminate.
Qed.

Lemma bulk_monosurface_larger_radius_symmetric_witness :
  pair_field 1 bulk_diffusion_candidate 4 1 1 1 3 0 1 tt =
    saturate (clamp (1 * 4 / (3 * 1 * (1 + 3) * (1 + 3) * 1))) /\
  pair_field 1 bulk_diffusion_candidate 4 1 1 1 3 0 1 tt =
    pair_field 1 bulk_diffusion_candidate 4 1 1 1 3 1 0 tt.
Proof.
  destruct (bulk_monosurface_larger_radius_symmetric unit nat nat
              (expression 1 "BULK_DIFFUSION") (memory 4 1 1 1 3) outputs
              (pair_fields 1 bulk_diffusion_candidate 4 1 1 1 3) 0 1
              (pair_field 1 bulk_diffusion_candidate 4 1 1 1 3 0 1)
              (pair_field 1 bulk_diffusion_candidate 4 1 1 1 3 1 0)
              3 4 0 2 1 tt
              (or_introl eq_refl) eq_refl eq_refl eq_refl eq_refl eq_refl eq_refl
              eq_refl eq_refl) as (Hval & _ & _ & Hsym).
  split; [apply Hval; reflexivity | apply Hsym; reflexivity].
Defined.

Lemma unrecognized_model_writes_nothing_witness :
  evaluate (expression 1 "DIFFUSION") (memory 4 1 1 1 3) outputs = Some outputs.
Proof.
  apply (unrecognized_model_writes_nothing unit nat nat).
  - intros [H | [H | [H | H]]]; discriminate H.
  - discriminate.
Defined.

(** C6 fails as stated: two negative growth rates both give [0]; between
    the two positive growth rates [0x1.7ffffffffffffp-52 < 0x1.8p-52] the
    rounded efficiency decreases; and with negative radii, or with a negative
    length parameter, it decreases as well. *)
Lemma efficiency_not_strictly_increasing :
  (-2 <? -1)%float = true /\
  guard 1 1 = true /\
  efficiency constant_candidate 1 (-2) 1 1 1 1 = 0%float /\
  efficiency constant_candidate 1 (-1) 1 1 1 1 = 0%float /\
  (efficiency constant_candidate 1 (-2) 1 1 1 1 <?
   efficiency constant_candidate 1 (-1) 1 1 1 1)%float = false /\
  (0x1.7ffffffffffffp-52 <? 0x1.8p-52)%float = true /\
  (efficiency constant_candidate 1 0x1.8p-52 1 1 0.5 0.5 <?
   efficiency constant_candidate 1 0x1.7ffffffffffffp-52 1 1 0.5 0.5)%float = true /\
  (-8 <? -4)%float = true /\
  (efficiency bulk_diffusion_candidate 1 (-4) 1 1 (-1) (-1) <?
   efficiency bulk_diffusion_candidate 1 (-8) 1 1 (-1) (-1))%float = true /\
  (efficiency constant_candidate (-1) (-4) 1 1 0.5 0.5 <?
   efficiency constant_candidate (-1) (-8) 1 1 0.5 0.5)%float = true.
Proof. repeat split. Qed.

Lemma growth_above_clamped_region_witness :
  efficiency constant_candidate 1 (-1) 1 1 1 1 = 0%float /\
  (efficiency constant_candidate 1 2 1 1 1 1 <?
   efficiency constant_candidate 1 (-1) 1 1 1 1)%float = false.
Proof.
  apply (growth_above_clamped_region "CONSTANT" constant_candidate
           1 (-1) 2 1 1 1 1); reflexivity.
Defined.

Lemma constant_kinetic_symmetric_witness :
  pair_field 1 constant_candidate 2 1 1 1 3 0 1 tt =
  pair_field 1 constant_candidate 2 1 1 1 3 1 0 tt.
Proof.
  apply (constant_kinetic_symmetric unit nat nat (expression 1 "KINETIC")
           (memory 2 1 1 1 3) outputs
           (pair_fields 1 constant_candidate 2 1 1 1 3) 0 1
           (pair_field 1 constant_candidate 2 1 1 1 3 0 1)
           (pair_field 1 constant_candidate 2 1 1 1 3 1 0)).
  - right; reflexivity.
  - reflexivity.
  - cbn; lia.
  - cbn; lia.
  - reflexivity.
  - reflexivity.
Defined.

Lemma negative_candidate_gives_zero_witness :
  clamp (monosurface_candidate 1 (-1) 1 1 2 1) = 0%float /\
  pair_field 1 monosurface_candidate (-1) 1 1 1 2 1 0 tt = 0%float.
Proof.
  apply (negative_candidate_gives_zero unit nat nat
           (expression 1 "MONOSURFACE") (memory (-1) 1 1 1 2) outputs
           (pair_fields 1 monosurface_candidate (-1) 1 1 1 2) 1 0
           (pair_field 1 monosurface_candidate (-1) 1 1 1 2 1 0)
           monosurface_candidate 4 3 0 2 1 tt); reflexivity.
Defined.

Lemma writes_row_major_witness :
  exists res' cand,
    evaluate (expression 1 "CONSTANT") (memory 2 1 1 1 1) outputs = Some res' /\
    select_candidate "CONSTANT" = Some cand /\
    List.length res' = 4 /\
    (forall i j, i < 2 -> j < 2 ->
       exists f, written_field (expression 1 "CONSTANT") (memory 2 1 1 1 1)
                   cand i j = Some f /\
                 nth_error res' (i * 2 + j) = Some f) /\
    (forall k, 4 <= k -> nth_error res' k = nth_error outputs k).
Proof.
  apply (writes_row_major unit nat nat (expression 1 "CONSTANT")
           (memory 2 1 1 1 1) outputs).
  - right; right; left; reflexivity.
  - repeat split; discriminate.
  - discriminate.
  - cbn; lia.
Defined.

Lemma bind_fields_rebinds_abscissae_witness :
  Forall2 (fun t h => volfm t = Some h) [3; 4]
    (abscissae_ (expression 1 "CONSTANT")) /\
  List.length (abscissae_ (expression 1 "CONSTANT")) = 2 /\
  abscissaeTagList_ (expression 1 "CONSTANT") = [3; 4].
Proof.
  apply (bind_fields_rebinds_abscissae nat nat [3; 4] 0 1 2 1%float "CONSTANT"
           [volfm; (fun _ => None); volfm] volfm).
  reflexivity.
Defined.

End Runs.

(** * Further properties: binding and dependencies *)

Section BindMore.

Variables (Tag Handle : Type).

Implicit Types (e : AggregationEfficiency Tag Handle).
Implicit Types (volfm : FieldManager Tag Handle).

Lemma set_abscissae_same e : set_abscissae e (abscissae_ e) = e.
Proof. destruct e; reflexivity. Qed.

(** The push loop returns exactly when every tag resolves, and then it has
    appended the handles in tag order. *)
Lemma push_abscissae_resolved volfm tags : forall e hs,
  Forall2 (fun t h => volfm t = Some h) tags hs ->
  push_abscissae volfm tags e = Returned (set_abscissae e (abscissae_ e ++ hs)).
Proof.
  induction tags as [|t tags IH]; intros e hs Hf; inversion Hf; subst; cbn.
  - rewrite app_nil_r, set_abscissae_same. reflexivity.
  - match goal with H : volfm t = Some _ |- _ => rewrite H end.
    rewrite (IH _ _ ltac:(eassumption)). cbn. rewrite <- app_assoc. reflexivity.
Qed.

(** It stops at the first tag that does not resolve, with the handles of the
    tags before it appended. *)
Lemma push_abscissae_unresolved volfm ts1 t ts2 : forall e hs,
  Forall2 (fun t h => volfm t = Some h) ts1 hs -> volfm t = None ->
  push_abscissae volfm (ts1 ++ t :: ts2) e
  = Thrown (set_abscissae e (abscissae_ e ++ hs)).
Proof.
  induction ts1 as [|t1 ts1 IH]; intros e hs Hf Hn; inversion Hf; subst; cbn.
  - rewrite Hn, app_nil_r, set_abscissae_same. reflexivity.
  - match goal with H : volfm t1 = Some _ |- _ => rewrite H end.
    rewrite (IH _ _ ltac:(eassumption) Hn). cbn. rewrite <- app_assoc. reflexivity.
Qed.

(** The object a returning [bind_fields] produces. *)
Lemma bind_fields_resolved volfm e hs g d r :
  Forall2 (fun t h => volfm t = Some h) (abscissaeTagList_ e) hs ->
  volfm (growthCoefTag_ e) = Some g ->
  volfm (dissipationTag_ e) = Some d ->
  volfm (densityTag_ e) = Some r ->
  bind_fields volfm e
  = Returned (set_scalars (set_abscissae e hs) (Some g) (Some d) (Some r)).
Proof.
  intros Hf Hg Hd Hr. unfold bind_fields.
  rewrite (push_abscissae_resolved volfm _ _ hs) by exact Hf. cbn.
  rewrite Hg. cbn. rewrite Hd. cbn. rewrite Hr. reflexivity.
Qed.

Lemma bind_fields_returned_inv volfm e e' :
  bind_fields volfm e = Returned e' ->
  exists hs g d r,
    Forall2 (fun t h => volfm t = Some h) (abscissaeTagList_ e) hs /\
    volfm (growthCoefTag_ e) = Some g /\
    volfm (dissipationTag_ e) = Some d /\
    volfm (densityTag_ e) = Some r /\
    e' = set_scalars (set_abscissae e hs) (Some g) (Some d) (Some r).
Proof.
  intros H. pose proof H as H0. unfold bind_fields in H.
  destruct (push_abscissae _ _ _) as [e1|e1] eqn:Hp; try discriminate.
  apply push_abscissae_returned in Hp.
  destruct Hp as (hs & Ha & Hf & Ht & Hgt & Hdt & Hrt). cbn in Ha, Hf, Ht, Hgt, Hdt, Hrt.
  destruct (volfm (growthCoefTag_ e1)) as [g|] eqn:Hg; try discriminate.
  cbn in H. destruct (volfm (dissipationTag_ e1)) as [d|] eqn:Hd; try discriminate.
  cbn in H. destruct (volfm (densityTag_ e1)) as [r|] eqn:Hr; try discriminate.
  rewrite Hgt in Hg. rewrite Hdt in Hd. rewrite Hrt in Hr.
  exists hs, g, d, r. repeat (split; [assumption|]).
  rewrite (bind_fields_resolved volfm e hs g d r Hf Hg Hd Hr) in H0.
  congruence.
Qed.

Lemma Forall2_resolves_exists volfm (tags : list Tag) :
  (forall t, In t tags -> volfm t <> None) ->
  exists hs, Forall2 (fun t h => volfm t = Some h) tags hs.
Proof.
  induction tags as [|t tags IH]; intros H.
  - exists []. constructor.
  - destruct IH as [hs Hhs]; [intros t' Ht'; apply H; right; exact Ht'|].
    destruct (volfm t) as [h|] eqn:Ht; [|exfalso; apply (H t); [left; reflexivity | exact Ht]].
    exists (h :: hs). constructor; assumption.
Qed.

Lemma Forall2_resolves_in volfm (tags : list Tag) hs t :
  Forall2 (fun t h => volfm t = Some h) tags hs -> In t tags -> volfm t <> None.
Proof.
  induction 1 as [|t' h tags hs Hh _ IH]; intros Hin; [contradiction|].
  destruct Hin as [<- | Hin]; [congruence | exact (IH Hin)].
Qed.

Lemma in_advertise_dependents e t :
  In t (advertise_dependents e []) <->
  In t (abscissaeTagList_ e) \/ t = growthCoefTag_ e \/ t = dissipationTag_ e \/
  t = densityTag_ e.
Proof.
  unfold advertise_dependents, requires_expression, requires_expressions. cbn.
  rewrite !in_app_iff. cbn. intuition congruence.
Qed.

(** With every advertised tag resolved, [bind_fields] returns. *)
Lemma bind_fields_runs volfm e :
  (forall t, In t (advertise_dependents e []) -> volfm t <> None) ->
  exists hs g d r,
    Forall2 (fun t h => volfm t = Some h) (abscissaeTagList_ e) hs /\
    volfm (growthCoefTag_ e) = Some g /\
    volfm (dissipationTag_ e) = Some d /\
    volfm (densityTag_ e) = Some r /\
    bind_fields volfm e
    = Returned (set_scalars (set_abscissae e hs) (Some g) (Some d) (Some r)).
Proof.
  intros H.
  destruct (Forall2_resolves_exists volfm (abscissaeTagList_ e)) as [hs Hf].
  { intros t Ht. apply H, in_advertise_dependents. left. exact Ht. }
  destruct (volfm (growthCoefTag_ e)) as [g|] eqn:Hg;
    [|exfalso; apply (H (growthCoefTag_ e)); [apply in_advertise_dependents; tauto | exact Hg]].
  destruct (volfm (dissipationTag_ e)) as [d|] eqn:Hd;
    [|exfalso; apply (H (dissipationTag_ e)); [apply in_advertise_dependents; tauto | exact Hd]].
  destruct (volfm (densityTag_ e)) as [r|] eqn:Hr;
    [|exfalso; apply (H (densityTag_ e)); [apply in_advertise_dependents; tauto | exact Hr]].
  exists hs, g, d, r. repeat (split; [first [assumption | reflexivity]|]).
  apply (bind_fields_resolved volfm e hs g d r); assumption.
Qed.

(** X1: [bind_fields] returns exactly when the field manager resolves every
    tag that [advertise_dependents] declares; it asks for no other tag. *)
Theorem bind_fields_returns_iff_dependencies_resolve volfm e :
  (exists e', bind_fields volfm e = Returned e') <->
  (forall t, In t (advertise_dependents e []) -> volfm t <> None).
Proof.
  split.
  - intros [e' H] t Ht. apply bind_fields_returned_inv in H.
    destruct H as (hs & g & d & r & Hf & Hg & Hd & Hr & _).
    apply in_advertise_dependents in Ht.
    destruct Ht as [Ht | [-> | [-> | ->]]]; try congruence.
    eapply Forall2_resolves_in; eassumption.
  - intros H. destruct (bind_fields_runs volfm e H) as (hs & g & d & r & _ & _ & _ & _ & Hb).
    eexists. exact Hb.
Qed.

Lemma push_abscissae_configuration volfm tags : forall e,
  same_configuration e (object_after (push_abscissae volfm tags e)).
Proof.
  induction tags as [|t tags IH]; intros e; cbn.
  - repeat split.
  - destruct (volfm t) as [h|]; [|repeat split].
    specialize (IH (set_abscissae e (abscissae_ e ++ [h]))). exact IH.
Qed.

(** X2: however it ends, [bind_fields] changes nothing of the configuration
    (tags, length parameter, growth model), so the object declares the same
    dependencies before and after. *)
Theorem bind_fields_keeps_configuration volfm e exprDeps :
  same_configuration e (object_after (bind_fields volfm e)) /\
  advertise_dependents (object_after (bind_fields volfm e)) exprDeps
  = advertise_dependents e exprDeps.
Proof.
  assert (H : same_configuration e (object_after (bind_fields volfm e))).
  { unfold bind_fields.
    pose proof (push_abscissae_configuration volfm
                  (abscissaeTagList_ (set_abscissae e [])) (set_abscissae e [])) as H.
    destruct (push_abscissae _ _ _) as [e1|e1]; cbn in H |- *; [|exact H].
    destruct (volfm (growthCoefTag_ e1)); cbn; [|exact H].
    destruct (volfm (dissipationTag_ e1)); cbn; [|exact H].
    destruct (volfm (densityTag_ e1)); cbn; exact H. }
  split; [exact H|].
  destruct H as (H1 & H2 & H3 & H4 & _).
  unfold advertise_dependents. rewrite H1, H2, H3, H4. reflexivity.
Qed.

(** X3: when an abscissa tag does not resolve, [bind_fields] ends by the
    exception with the object half rebound: the stored list holds the handles
    of the tags before the failing one only, and the three scalar pointers
    are the ones from before the call. *)
Theorem bind_fields_throws_half_bound volfm e ts1 t ts2 hs :
  abscissaeTagList_ e = ts1 ++ t :: ts2 ->
  Forall2 (fun t h => volfm t = Some h) ts1 hs -> volfm t = None ->
  bind_fields volfm e = Thrown (set_abscissae e hs) /\
  List.length (abscissae_ (object_after (bind_fields volfm e))) = List.length ts1 /\
  g0_ (object_after (bind_fields volfm e)) = g0_ e /\
  eps_ (object_after (bind_fields volfm e)) = eps_ e /\
  rho_ (object_after (bind_fields volfm e)) = rho_ e.
Proof.
  intros Ht Hf Hn.
  assert (H : bind_fields volfm e = Thrown (set_abscissae e hs)).
  { unfold bind_fields. cbn [abscissaeTagList_ set_abscissae]. rewrite Ht.
    rewrite (push_abscissae_unresolved volfm ts1 t ts2 _ hs Hf Hn). reflexivity. }
  rewrite H. cbn. repeat split. symmetry. eapply Forall2_length, Hf.
Qed.

(** X4: what a returning [bind_fields] leaves depends on the configuration
    and the field manager only, not on what was bound before; in particular
    binding again with the same field manager changes nothing. *)
Theorem bind_fields_forgets_previous_binding volfm e1 e2 e1' :
  same_configuration e1 e2 ->
  bind_fields volfm e1 = Returned e1' ->
  bind_fields volfm e2 = Returned e1' /\ bind_fields volfm e1' = Returned e1'.
Proof.
  intros Hc H. apply bind_fields_returned_inv in H.
  destruct H as (hs & g & d & r & Hf & Hg & Hd & Hr & ->).
  destruct Hc as (H1 & H2 & H3 & H4 & H5 & H6).
  split.
  - rewrite (bind_fields_resolved volfm e2 hs g d r);
      [| rewrite <- H1; exact Hf | rewrite <- H2; exact Hg
       | rewrite <- H3; exact Hd | rewrite <- H4; exact Hr].
    destruct e1, e2; cbn in *; subst; reflexivity.
  - rewrite (bind_fields_resolved volfm _ hs g d r) by assumption. reflexivity.
Qed.

End BindMore.

(** * Further properties: evaluation *)

Section EvaluateMore.

Variables (Point Tag Handle : Type).

Implicit Types (e : AggregationEfficiency Tag Handle) (mem : Memory Point Handle).
Implicit Types (res : list (Field Point)).


Lemma evaluate_no_abscissae e mem res :
  abscissae_ e = [] -> res <> [] -> evaluate e mem res = Some res.
Proof.
  intros Ha Hne. unfold evaluate. destruct res as [|r0 res]; [contradiction|].
  rewrite Ha. destruct (select_candidate (growthModel_ e)); reflexivity.
Qed.

(** What a returning run needs, when the loops have an iteration to do. *)
Lemma evaluate_returned_needs e mem res res' :
  recognized (growthModel_ e) -> 0 < List.length (abscissae_ e) ->
  evaluate e mem res = Some res' ->
  bound e /\
  List.length (abscissae_ e) * List.length (abscissae_ e) <= List.length res.
Proof.
  intros Hrec HN Hev. set (N := List.length (abscissae_ e)) in *.
  apply select_candidate_recognized in Hrec.
  destruct (select_candidate (growthModel_ e)) as [cand|] eqn:Hsel; [|contradiction].
  destruct (evaluate_inv _ _ _ e mem cand res res' Hsel Hev) as (Hl & _ & Hw).
  fold N in Hw. destruct (Hw (N - 1) (N - 1)) as (f & Hf & Hn); try lia.
  destruct (written_field_value _ _ _ _ _ _ _ _ _ Hf)
    as (hi & hj & hg & hr & he & _ & _ & Eg & Er & Ee & _).
  split.
  - unfold bound. rewrite Eg, Er, Ee. repeat split; discriminate.
  - assert (Hlt : (N - 1) * N + (N - 1) < List.length res').
    { apply nth_error_Some. rewrite Hn. discriminate. }
    rewrite Hl in Hlt. nia.
Qed.

(** X5: for a growth model with a branch and at least one bound abscissa,
    [evaluate] is defined exactly when the three scalar pointers are bound
    and the result vector has room for the [N * N] fields; with fewer
    results it indexes past the end of the vector. *)
Theorem evaluate_defined_iff e mem res :
  recognized (growthModel_ e) -> 0 < List.length (abscissae_ e) ->
  ((exists res', evaluate e mem res = Some res') <->
   bound e /\
   List.length (abscissae_ e) * List.length (abscissae_ e) <= List.length res).
Proof.
  intros Hrec HN. split.
  - intros [res' Hev]. exact (evaluate_returned_needs e mem res res' Hrec HN Hev).
  - intros [Hb Hl]. apply evaluate_runs; [exact Hb | | exact Hl].
    intros ->. cbn in Hl. nia.
Qed.

(** X6: an expression that was built but never bound holds no abscissa, so
    [evaluate] runs no iteration and leaves every result as it was, whatever
    the growth model and however many abscissa tags were declared. *)
Theorem evaluate_before_binding_writes_nothing
    (b : Builder.t Tag) mem res :
  res <> [] -> evaluate (Builder.build Handle b) mem res = Some res.
Proof. intros Hne. apply evaluate_no_abscissae; [reflexivity | exact Hne]. Qed.





(** X12: the growth models MONOSURFACE and BULK_DIFFUSION run the same
    computation, and so do KINETIC and CONSTANT: exchanging one name for the
    other changes no result. *)
Theorem growth_model_aliases e mem res :
  evaluate (with_growth_model e "MONOSURFACE") mem res
  = evaluate (with_growth_model e "BULK_DIFFUSION") mem res /\
  evaluate (with_growth_model e "KINETIC") mem res
  = evaluate (with_growth_model e "CONSTANT") mem res.
Proof. split; reflexivity. Qed.

Lemma Forall2_nth_error (A B : Type) (R : A -> B -> Prop) (l : list A) (l' : list B) :
  Forall2 R l l' ->
  forall i a, nth_error l i = Some a -> exists b, nth_error l' i = Some b /\ R a b.
Proof.
  induction 1 as [|a0 b0 l l' Hab _ IH]; intros [|i] a Hn; cbn in Hn;
    try discriminate.
  - injection Hn as <-. exists b0. split; [reflexivity | exact Hab].
  - exact (IH i a Hn).
Qed.

(** X11: the whole life cycle.  Build the expression, bind it with a field
    manager that resolves every tag it advertises, and evaluate it on a
    result vector with room for [N * N] fields, [N] the number of abscissa
    tags: both calls return, and the result at [i * N + j] holds, at every
    point, the efficiency computed from the fields the field manager
    resolved the tags [i] and [j] and the three scalar tags to. *)
Theorem build_bind_evaluate
    (b : Builder.t Tag) (volfm : FieldManager Tag Handle) mem res :
  recognized (Builder.growthmodel_ b) ->
  (forall t, In t (advertise_dependents (Builder.build Handle b) []) ->
             volfm t <> None) ->
  res <> [] ->
  List.length (Builder.abscissaetaglist_ b) * List.length (Builder.abscissaetaglist_ b)
    <= List.length res ->
  exists e' res' cand,
    bind_fields volfm (Builder.build Handle b) = Returned e' /\
    select_candidate (Builder.growthmodel_ b) = Some cand /\
    evaluate e' mem res = Some res' /\
    List.length res' = List.length res /\
    forall i j ti tj hi hj hg hr he,
      nth_error (Builder.abscissaetaglist_ b) i = Some ti ->
      nth_error (Builder.abscissaetaglist_ b) j = Some tj ->
      volfm ti = Some hi -> volfm tj = Some hj ->
      volfm (Builder.growthcoeft_ b) = Some hg ->
      volfm (Builder.densityt_ b) = Some hr ->
      volfm (Builder.dissipationt_ b) = Some he ->
      exists f,
        nth_error res' (i * List.length (Builder.abscissaetaglist_ b) + j) = Some f /\
        forall p, f p = efficiency cand (Builder.l_ b) (mem hg p) (mem hr p)
                                   (mem he p) (mem hi p) (mem hj p).
Proof.
  intros Hrec Hres Hne Hlen.
  destruct (bind_fields_runs _ _ volfm (Builder.build Handle b) Hres)
    as (hs & g & d & r & Hf & Hg & Hd & Hr & Hb).
  cbn in Hf, Hg, Hd, Hr.
  remember (set_scalars (set_abscissae (Builder.build Handle b) hs)
              (Some g) (Some d) (Some r)) as e' eqn:He'.
  assert (Hhs : List.length hs = List.length (Builder.abscissaetaglist_ b))
    by (symmetry; eapply Forall2_length, Hf).
  assert (Ha : abscissae_ e' = hs) by (rewrite He'; reflexivity).
  assert (Hbound : bound e') by (rewrite He'; repeat split; discriminate).
  assert (Hmodel : growthModel_ e' = Builder.growthmodel_ b)
    by (rewrite He'; reflexivity).
  assert (Hl : l_ e' = Builder.l_ b) by (rewrite He'; reflexivity).
  pose proof Hrec as Hrec'. apply select_candidate_recognized in Hrec'.
  destruct (select_candidate (Builder.growthmodel_ b)) as [cand|] eqn:Hsel;
    [|contradiction].
  destruct (evaluate_runs _ _ _ e' mem res Hbound Hne) as [res' Hev].
  { rewrite Ha, Hhs. exact Hlen. }
  assert (Hsel' : select_candidate (growthModel_ e') = Some cand)
    by (rewrite Hmodel; exact Hsel).
  destruct (evaluate_inv _ _ _ e' mem cand res res' Hsel' Hev) as (Hl' & _ & Hw).
  exists e', res', cand.
  split; [exact Hb|]. split; [reflexivity|]. split; [exact Hev|].
  split; [exact Hl'|].
  intros i j ti tj hi hj hg hr he Hti Htj Hhi Hhj Hhg Hhr Hhe.
  destruct (Forall2_nth_error _ _ _ _ _ Hf i ti Hti) as (hi0 & Hni & Hri).
  destruct (Forall2_nth_error _ _ _ _ _ Hf j tj Htj) as (hj0 & Hnj & Hrj).
  assert (Hi : i < List.length (abscissae_ e'))
    by (rewrite Ha; apply nth_error_Some; congruence).
  assert (Hj : j < List.length (abscissae_ e'))
    by (rewrite Ha; apply nth_error_Some; congruence).
  destruct (Hw i j Hi Hj) as (f & Hwf & Hn).
  exists f. rewrite Ha, Hhs in Hn. split; [exact Hn|].
  destruct (written_field_value _ _ _ _ _ _ _ _ _ Hwf)
    as (hi' & hj' & hg' & hr' & he' & Ei & Ej & Eg & Er & Ee & Hv).
  rewrite Ha in Ei, Ej. rewrite He' in Eg, Er, Ee. cbn in Eg, Er, Ee.
  intros p. rewrite Hv, Hl.
  assert (hi' = hi) by congruence. assert (hj' = hj) by congruence.
  assert (hg' = hg) by congruence. assert (hr' = hr) by congruence.
  assert (he' = he) by congruence. subst. reflexivity.
Qed.

End EvaluateMore.

(** * Further properties: degenerate inputs of the kernel *)

Section KernelMore.

Lemma is_nan_eq x : is_nan x = true -> x = nan.
Proof.
  rewrite is_nan_spec. intros H. apply eq_nan_of_spec.
  destruct (Prim2SF x); try discriminate. reflexivity.
Qed.

Lemma gtb_nan_zero : gtb nan 0 = false.
Proof. reflexivity. Qed.

Lemma div_nan_l x : (nan / x = nan)%float.
Proof. apply Prim2SF_inj. rewrite div_spec, Prim2SF_nan. reflexivity. Qed.

Lemma not_nan_of_positive x : gtb x 0 = true -> is_nan x = false.
Proof.
  rewrite gtb_zero, is_nan_spec. destruct (Prim2SF x); cbn; congruence.
Qed.

Lemma constant_divisor_nan_sum rho ri rj eps :
  (ri + rj = nan)%float -> constant_divisor rho ri rj eps = nan.
Proof.
  unfold constant_divisor. intros ->.
  repeat (rewrite mul_nan_r || rewrite mul_nan_l). reflexivity.
Qed.

Lemma quotient_nan l g d :
  is_nan l = true \/ is_nan g = true \/ d = nan -> (l * g / d = nan)%float.
Proof.
  intros [H | [H | ->]].
  - apply is_nan_eq in H. subst. rewrite mul_nan_l. apply div_nan_l.
  - apply is_nan_eq in H. subst. rewrite mul_nan_r. apply div_nan_l.
  - apply div_nan_r.
Qed.

(** A NaN among the inputs never reaches the output. *)
Lemma efficiency_nan_input model cand l g0 rho eps ri rj :
  select_candidate model = Some cand ->
  is_nan l || is_nan g0 || is_nan rho || is_nan eps || is_nan ri || is_nan rj = true ->
  efficiency cand l g0 rho eps ri rj = 0%float.
Proof.
  intros Hsel Hnan. apply efficiency_not_positive_candidate.
  destruct (guard rho eps) eqn:Hguard.
  - assert (Hrho : is_nan rho = false).
    { apply not_nan_of_positive. unfold guard in Hguard.
      destruct (gtb rho 0); [reflexivity | discriminate]. }
    assert (Heps : is_nan eps = false).
    { apply not_nan_of_positive. unfold guard in Hguard.
      destruct (gtb eps 0); [reflexivity | rewrite andb_false_r in Hguard; discriminate]. }
    rewrite Hrho, Heps, !orb_false_r in Hnan.
    assert (Hcases : is_nan l = true \/ is_nan g0 = true \/ (ri + rj = nan)%float).
    { destruct (is_nan l); [tauto|]. destruct (is_nan g0); [tauto|].
      right; right. apply add_nan_of_arg. rewrite <- !is_nan_spec.
      destruct (is_nan ri); [tauto|]. right. exact Hnan. }
    destruct (select_candidate_cases _ _ Hsel) as [-> | [-> | ->]].
    + rewrite bulk_diffusion_candidate_guarded by exact Hguard.
      rewrite quotient_nan; [apply gtb_nan_zero|].
      destruct Hcases as [H | [H | H]]; auto using bulk_divisor_nan_sum.
    + rewrite monosurface_is_bulk_diffusion.
      rewrite bulk_diffusion_candidate_guarded by exact Hguard.
      rewrite quotient_nan; [apply gtb_nan_zero|].
      destruct Hcases as [H | [H | H]]; auto using bulk_divisor_nan_sum.
    + rewrite constant_candidate_guarded by exact Hguard.
      rewrite quotient_nan; [apply gtb_nan_zero|].
      destruct Hcases as [H | [H | H]]; auto using constant_divisor_nan_sum.
  - rewrite (candidate_unguarded _ _ _ _ _ _ _ _ Hsel Hguard). reflexivity.
Qed.

Lemma SFdiv_zero_or_nan_num x d :
  SFis_zero x || SFis_nan x = true -> SFis_pos (SF64div x d) = false.
Proof.
  destruct x as [s|s| |s m e]; try discriminate; intros _;
    destruct d as [s'|s'| |s' m' e']; reflexivity.
Qed.

Lemma quotient_zero_factor l g d :
  is_zero l = true \/ is_zero g = true -> gtb (l * g / d) 0 = false.
Proof.
  rewrite !is_zero_spec, gtb_zero, div_spec, mul_spec. intros H.
  apply SFdiv_zero_or_nan_num.
  destruct H as [H | H];
    [apply SFmul_zero_or_nan_l | apply SFmul_zero_or_nan_r]; rewrite H; reflexivity.
Qed.

(** A zero length parameter or a zero growth rate gives a zero efficiency. *)
Lemma efficiency_zero_factor model cand l g0 rho eps ri rj :
  select_candidate model = Some cand ->
  is_zero l = true \/ is_zero g0 = true ->
  efficiency cand l g0 rho eps ri rj = 0%float.
Proof.
  intros Hsel Hz. apply efficiency_not_positive_candidate.
  destruct (guard rho eps) eqn:Hguard.
  - destruct (select_candidate_cases _ _ Hsel) as [-> | [-> | ->]].
    + rewrite bulk_diffusion_candidate_guarded by exact Hguard.
      apply quotient_zero_factor, Hz.
    + rewrite monosurface_is_bulk_diffusion.
      rewrite bulk_diffusion_candidate_guarded by exact Hguard.
      apply quotient_zero_factor, Hz.
    + rewrite constant_candidate_guarded by exact Hguard.
      apply quotient_zero_factor, Hz.
  - rewrite (candidate_unguarded _ _ _ _ _ _ _ _ Hsel Hguard). reflexivity.
Qed.

End KernelMore.

Section DegenerateInputs.

Variables (Point Tag Handle : Type).

(** X9: a NaN among the inputs of a pair at a point (the length parameter,
    the growth rate, the density, the dissipation or one of the two radii)
    never reaches the output: the efficiency written there is exactly [0]. *)
Theorem nan_input_gives_zero
    (e : AggregationEfficiency Tag Handle) (mem : Memory Point Handle)
    (res res' : list (Field Point)) (i j : nat) (f : Field Point)
    (cand : candidate) (hi hj hg hr he : Handle) (p : Point) :
  select_candidate (growthModel_ e) = Some cand ->
  evaluate e mem res = Some res' ->
  nth_error (abscissae_ e) i = Some hi -> nth_error (abscissae_ e) j = Some hj ->
  nth_error res' (i * List.length (abscissae_ e) + j) = Some f ->
  g0_ e = Some hg -> rho_ e = Some hr -> eps_ e = Some he ->
  is_nan (l_ e) || is_nan (mem hg p) || is_nan (mem hr p) || is_nan (mem he p)
    || is_nan (mem hi p) || is_nan (mem hj p) = true ->
  f p = 0%float.
Proof.
  intros Hsel Hev Hi Hj Hn Hg Hr He Hnan.
  rewrite (evaluate_written_value _ _ _ e mem res res' i j f cand hi hj hg hr he p)
    by assumption.
  exact (efficiency_nan_input _ _ _ _ _ _ _ _ Hsel Hnan).
Qed.

(** X10: where the growth rate is zero, or when the length parameter is
    zero, the efficiency written is exactly [0], whatever the other inputs
    (zero radii included). *)
Theorem zero_growth_gives_zero
    (e : AggregationEfficiency Tag Handle) (mem : Memory Point Handle)
    (res res' : list (Field Point)) (i j : nat) (f : Field Point)
    (cand : candidate) (hi hj hg hr he : Handle) (p : Point) :
  select_candidate (growthModel_ e) = Some cand ->
  evaluate e mem res = Some res' ->
  nth_error (abscissae_ e) i = Some hi -> nth_error (abscissae_ e) j = Some hj ->
  nth_error res' (i * List.length (abscissae_ e) + j) = Some f ->
  g0_ e = Some hg -> rho_ e = Some hr -> eps_ e = Some he ->
  is_zero (l_ e) = true \/ is_zero (mem hg p) = true ->
  f p = 0%float.
Proof.
  intros Hsel Hev Hi Hj Hn Hg Hr He Hz.
  rewrite (evaluate_written_value _ _ _ e mem res res' i j f cand hi hj hg hr he p)
    by assumption.
  exact (efficiency_zero_factor _ _ _ _ _ _ _ _ Hsel Hz).
Qed.

End DegenerateInputs.

Section NonzeroOutput.

Variables (Point Tag Handle : Type).

(** X13: an efficiency that is not zero (NaN included) is written only where
    the density and the dissipation are both positive and the candidate is
    positive. *)
Theorem nonzero_efficiency_needs_positive_inputs
    (e : AggregationEfficiency Tag Handle) (mem : Memory Point Handle)
    (res res' : list (Field Point)) (i j : nat) (f : Field Point)
    (cand : candidate) (hi hj hg hr he : Handle) (p : Point) :
  select_candidate (growthModel_ e) = Some cand ->
  evaluate e mem res = Some res' ->
  nth_error (abscissae_ e) i = Some hi -> nth_error (abscissae_ e) j = Some hj ->
  nth_error res' (i * List.length (abscissae_ e) + j) = Some f ->
  g0_ e = Some hg -> rho_ e = Some hr -> eps_ e = Some he ->
  is_zero (f p) = false ->
  gtb (mem hr p) 0 = true /\ gtb (mem he p) 0 = true /\
  gtb (cand (l_ e) (mem hg p) (mem hr p) (mem he p) (mem hi p) (mem hj p)) 0 = true.
Proof.
  intros Hsel Hev Hi Hj Hn Hg Hr He Hnz.
  rewrite (evaluate_written_value _ _ _ e mem res res' i j f cand hi hj hg hr he p)
    in Hnz by assumption.
  assert (Hc : gtb (cand (l_ e) (mem hg p) (mem hr p) (mem he p) (mem hi p) (mem hj p)) 0
               = true).
  { destruct (gtb (cand _ _ _ _ _ _) 0) eqn:Hc; [reflexivity|].
    rewrite (efficiency_not_positive_candidate _ _ _ _ _ _ _ Hc) in Hnz.
    discriminate. }
  assert (Hguard : guard (mem hr p) (mem he p) = true).
  { destruct (guard (mem hr p) (mem he p)) eqn:Hguard; [reflexivity|].
    rewrite (candidate_unguarded _ _ _ _ _ _ _ _ Hsel Hguard) in Hc. discriminate. }
  unfold guard in Hguard. apply andb_true_iff in Hguard. tauto.
Qed.

End NonzeroOutput.

(** * Concrete runs for the further properties *)

Section MoreRuns.

Import OnePoint.

Local Open Scope string_scope.

Lemma bind_fields_throws_half_bound_witness :
  bind_fields (fun t => if Nat.eqb t 4 then None else Some t)
    (expression 1 "CONSTANT")
  = Thrown (set_abscissae (expression 1 "CONSTANT") [3]) /\
  List.length (abscissae_ (object_after
    (bind_fields (fun t => if Nat.eqb t 4 then None else Some t)
       (expression 1 "CONSTANT")))) = 1 /\
  g0_ (object_after
    (bind_fields (fun t => if Nat.eqb t 4 then None else Some t)
       (expression 1 "CONSTANT"))) = Some 0 /\
  eps_ (object_after
    (bind_fields (fun t => if Nat.eqb t 4 then None else Some t)
       (expression 1 "CONSTANT"))) = Some 1 /\
  rho_ (object_after
    (bind_fields (fun t => if Nat.eqb t 4 then None else Some t)
       (expression 1 "CONSTANT"))) = Some 2.
Proof.
  apply (bind_fields_throws_half_bound nat nat
           (fun t => if Nat.eqb t 4 then None else Some t)
           (expression 1 "CONSTANT") [3] 4 [] [3]).
  - reflexivity.
  - constructor; [reflexivity | constructor].
  - reflexivity.
Defined.

Lemma bind_fields_forgets_previous_binding_witness :
  bind_fields volfm (expression 1 "CONSTANT") = Returned (expression 1 "CONSTANT") /\
  bind_fields volfm (expression 1 "CONSTANT") = Returned (expression 1 "CONSTANT").
Proof.
  apply (bind_fields_forgets_previous_binding nat nat volfm
           (construct nat [3; 4] 0 1 2 1%float "CONSTANT")
           (expression 1 "CONSTANT") (expression 1 "CONSTANT")).
  - repeat split.
  - reflexivity.
Defined.

Lemma evaluate_defined_iff_witness :
  (exists res', evaluate (expression 1 "KINETIC") (memory 2 1 1 1 3) [fun _ => 7%float]
                = Some res') <->
  bound (expression 1 "KINETIC") /\ 2 * 2 <= 1.
Proof.
  apply (evaluate_defined_iff unit nat nat (expression 1 "KINETIC")
           (memory 2 1 1 1 3) [fun _ => 7%float]).
  - right; right; right; reflexivity.
  - cbn; lia.
Defined.

Lemma evaluate_before_binding_writes_nothing_witness :
  evaluate (Builder.build nat
              (Builder.Build [5; 6; 7; 8] [3; 4] 0 1 2 1%float "CONSTANT"))
           (memory 2 1 1 1 3) outputs = Some outputs.
Proof.
  apply (evaluate_before_binding_writes_nothing unit nat nat). discriminate.
Defined.



Lemma nan_input_gives_zero_witness :
  pair_field 1 bulk_diffusion_candidate 4 1 1 nan 3 0 1 tt = 0%float.
Proof.
  apply (nan_input_gives_zero unit nat nat (expression 1 "BULK_DIFFUSION")
           (memory 4 1 1 nan 3) outputs
           (pair_fields 1 bulk_diffusion_candidate 4 1 1 nan 3) 0 1
           (pair_field 1 bulk_diffusion_candidate 4 1 1 nan 3 0 1)
           bulk_diffusion_candidate 3 4 0 2 1 tt); reflexivity.
Defined.

Lemma zero_growth_gives_zero_witness :
  pair_field 1 constant_candidate 0 1 1 0 0 0 1 tt = 0%float.
Proof.
  apply (zero_growth_gives_zero unit nat nat (expression 1 "CONSTANT")
           (memory 0 1 1 0 0) outputs
           (pair_fields 1 constant_candidate 0 1 1 0 0) 0 1
           (pair_field 1 constant_candidate 0 1 1 0 0 0 1)
           constant_candidate 3 4 0 2 1 tt); try reflexivity.
  right. reflexivity.
Defined.

Lemma build_bind_evaluate_witness :
  exists e' res' cand,
    bind_fields volfm
      (Builder.build nat (Builder.Build [5; 6; 7; 8] [3; 4] 0 1 2 1%float "KINETIC"))
      = Returned e' /\
    select_candidate "KINETIC" = Some cand /\
    evaluate e' (memory 2 1 1 1 3) outputs = Some res' /\
    List.length res' = 4 /\
    forall i j ti tj hi hj hg hr he,
      nth_error [3; 4] i = Some ti -> nth_error [3; 4] j = Some tj ->
      volfm ti = Some hi -> volfm tj = Some hj ->
      volfm 0 = Some hg -> volfm 2 = Some hr -> volfm 1 = Some he ->
      exists f,
        nth_error res' (i * 2 + j) = Some f /\
        forall p, f p = efficiency cand 1 (memory 2 1 1 1 3 hg p)
                          (memory 2 1 1 1 3 hr p) (memory 2 1 1 1 3 he p)
                          (memory 2 1 1 1 3 hi p) (memory 2 1 1 1 3 hj p).
Proof.
  apply (build_bind_evaluate unit nat nat
           (Builder.Build [5; 6; 7; 8] [3; 4] 0 1 2 1%float "KINETIC")
           volfm (memory 2 1 1 1 3) outputs).
  - right; right; right; reflexivity.
  - intros t _. discriminate.
  - discriminate.
  - cbn; lia.
Defined.

Lemma nonzero_efficiency_needs_positive_inputs_witness :
  gtb 1 0 = true /\ gtb 1 0 = true /\ gtb (constant_candidate 1 2 1 1 1 1) 0 = true.
Proof.
  apply (nonzero_efficiency_needs_positive_inputs unit nat nat
           (expression 1 "CONSTANT") (memory 2 1 1 1 1) outputs
           (pair_fields 1 constant_candidate 2 1 1 1 1) 1 1
           (pair_field 1 constant_candidate 2 1 1 1 1 1 1)
           constant_candidate 4 4 0 2 1 tt); reflexivity.
Defined.

End MoreRuns.
